(** * watchd: the session engine of [watchd.py], embedded in Rocq

    The development follows the classes of the source file:
    [Event], [Notifier], [PatternDetector] and [Session].

    - A Python [str] is a list of Unicode code points ([list N]); [bytes]
      is a list of [Byte.byte].
    - [time.time()] readings are rationals.
    - The operating system, the sockets, the HTTP endpoint and the [re],
      [json] and codec modules are outside the repository: what they
      return is an input of the model (an oracle), what the program asks
      them to do is recorded in a log of effects. *)

From Stdlib Require Import ZArith QArith Qminmax Lqa Lia List String Ascii.
From Stdlib.Strings Require Import Byte.
From Stdlib Require DecimalString.
From stdpp Require Import base option list gmap sets.

Close Scope Q_scope.
#[local] Set Warnings "-register-all".
Local Open Scope nat_scope.

(** ** Python strings *)

Abbreviation str := (list N).
Abbreviation bytes := (list Byte.byte).

(** An ASCII literal of the source as a [str]. *)
Definition lit (s : string) : str := List.map N_of_ascii (list_ascii_of_string s).

Arguments lit : simpl never.

Definition NL : N := 10%N.

(** [s.split('\n', 1)] when ['\n' in s]: the text before the first newline
    and the text after it; [None] when [s] holds no newline. *)
Fixpoint split_nl (s : str) : option (str * str) :=
  match s with
  | [] => None
  | c :: r =>
      if N.eqb c NL then Some ([], r)
      else match split_nl r with
           | Some (line, rest) => Some (c :: line, rest)
           | None => None
           end
  end.

(** [sep.join(xs)] *)
Fixpoint join (sep : str) (xs : list str) : str :=
  match xs with
  | [] => []
  | [x] => x
  | x :: r => x ++ sep ++ join sep r
  end.

(** [l[a:b]] for [0 <= a], [0 <= b] *)
Definition slice {A} (a b : nat) (l : list A) : list A := firstn (b - a) (skipn a l).

(** [l[-n:]] for [n > 0] *)
Definition last_n {A} (n : nat) (l : list A) : list A := skipn (length l - n) l.

(** [str(z)] for an [int] *)
Definition str_of_Z (z : Z) : str := lit (DecimalString.NilZero.string_of_int (Z.to_int z)).
Arguments str_of_Z : simpl never.

(** ** UTF-8 *)

Definition byte_of_N (n : N) : Byte.byte :=
  match Byte.of_N n with Some b => b | None => Byte.x00 end.

(** The UTF-8 encoding of one code point; surrogates and values past
    U+10FFFF have none ([UnicodeEncodeError]). *)
Definition utf8_char (c : N) : option bytes :=
  if (c <? 128)%N then Some [byte_of_N c]
  else if (c <? 2048)%N then
    Some [byte_of_N (192 + c / 64); byte_of_N (128 + c mod 64)]
  else if (c <? 65536)%N then
    if ((55296 <=? c) && (c <=? 57343))%N then None
    else Some [byte_of_N (224 + c / 4096); byte_of_N (128 + (c / 64) mod 64);
               byte_of_N (128 + c mod 64)]
  else if (c <? 1114112)%N then
    Some [byte_of_N (240 + c / 262144); byte_of_N (128 + (c / 4096) mod 64);
          byte_of_N (128 + (c / 64) mod 64); byte_of_N (128 + c mod 64)]
  else None.

(** [s.encode('utf-8')] *)
Fixpoint utf8_encode (s : str) : option bytes :=
  match s with
  | [] => Some []
  | c :: r =>
      match utf8_char c, utf8_encode r with
      | Some b, Some bs => Some (b ++ bs)
      | _, _ => None
      end
  end.

(** ** Event *)

Record Event := {
  event_type : str;
  message : str;
  priority : str;
  tags : list str;
  timestamp : Q;
  context : str;
  command : str
}.

(** The fields of an event other than its timestamp. *)
Definition event_view (e : Event) : str * str * str * list str * str * str :=
  (event_type e, message e, context e, tags e, priority e, command e).

(** ** PatternDetector *)

(** A compiled pattern: its source text ([pattern.pattern]) and what
    [pattern.search(line)] answers. *)
Record Pattern := { pattern : str; search : str -> bool }.

Record PatternDetector := {
  patterns : list Pattern;
  lines : list str;
  partial : str;
  seen : gset nat
}.

Definition PatternDetector_init (ps : list Pattern) : PatternDetector :=
  {| patterns := ps; lines := []; partial := []; seen := ∅ |}.

(** The [for pattern in self.patterns] loop of [feed] for the line at index
    [idx]; [lns] is [self.lines] with the line appended.  [clock k] is the
    reading of the [k]-th call of [time.time()] in this call of [feed]: one
    call is made per event appended. *)
Fixpoint for_patterns (clock : nat -> Q) (cmd line : str) (idx : nat) (lns : list str)
    (ps : list Pattern) (sn : gset nat) (events : list Event) : gset nat * list Event :=
  match ps with
  | [] => (sn, events)
  | p :: ps' =>
      if search p line && negb (bool_decide (idx ∈ sn)) then
        let ctx_start := Z.to_nat (Z.max 0 (Z.of_nat idx - 2)) in
        let ctx := join [NL] (slice ctx_start (idx + 1) lns) in
        for_patterns clock cmd line idx lns ps' ({[idx]} ∪ sn)
          (events ++ [{| event_type := lit "pattern_match";
                         message := lit "Matched: " ++ pattern p;
                         priority := lit "high";
                         tags := [lit "warning"];
                         timestamp := clock (length events);
                         context := ctx;
                         command := cmd |}])
      else for_patterns clock cmd line idx lns ps' sn events
  end.

(** One pass of the [while] loop of [feed], for the completed [line] and the
    text [rest] after its newline. *)
Definition feed_line (clock : nat -> Q) (cmd line rest : str) (d : PatternDetector)
    (events : list Event) : PatternDetector * list Event :=
  let lns := lines d ++ [line] in
  let idx := length lns - 1 in
  let '(sn, events') := for_patterns clock cmd line idx lns (patterns d) (seen d) events in
  let lns' := if 500 <? length lns then last_n 250 lns else lns in
  ({| patterns := patterns d; lines := lns'; partial := rest; seen := sn |}, events').

(** [while '\n' in self.partial]: each pass removes a newline from
    [partial], so [fuel] passes are enough when [fuel] is at least the
    length of [partial]. *)
Fixpoint feed_loop (fuel : nat) (clock : nat -> Q) (cmd : str) (d : PatternDetector)
    (events : list Event) : PatternDetector * list Event :=
  match fuel with
  | 0 => (d, events)
  | S fuel' =>
      match split_nl (partial d) with
      | None => (d, events)
      | Some (line, rest) =>
          let '(d', events') := feed_line clock cmd line rest d events in
          feed_loop fuel' clock cmd d' events'
      end
  end.

Definition feed (clock : nat -> Q) (data cmd : str) (d : PatternDetector)
    : list Event * PatternDetector :=
  let d0 := {| patterns := patterns d; lines := lines d;
               partial := partial d ++ data; seen := seen d |} in
  let '(d', events) := feed_loop (length (partial d0)) clock cmd d0 [] in
  (events, d').

(** [feed] called once per chunk, in order; [clocks i] is the clock of the
    [i]-th call. *)
Fixpoint feed_each (clocks : nat -> nat -> Q) (chunks : list str) (cmd : str)
    (d : PatternDetector) : list Event * PatternDetector :=
  match chunks with
  | [] => ([], d)
  | c :: cs =>
      let '(ev, d') := feed (clocks 0) c cmd d in
      let '(evs, d'') := feed_each (fun i => clocks (S i)) cs cmd d' in
      (ev ++ evs, d'')
  end.

(** *** The default patterns

    Every default pattern is a literal word between two [\b], compiled with
    [re.IGNORECASE].  [word_search_from] is that search on ASCII text only:
    on a [str] pattern Python also counts the letters and digits outside
    ASCII as word characters, and folds the case of some of them onto ASCII
    letters (the Kelvin sign onto [k], the long s onto [s]); neither is
    modelled.  The results below hold for any list of patterns, or
    evaluate the default ones on ASCII lines. *)

Definition lower (c : N) : N := if ((65 <=? c) && (c <=? 90))%N then (c + 32)%N else c.

Definition is_word (c : N) : bool :=
  ((48 <=? c) && (c <=? 57) || (65 <=? c) && (c <=? 90) || (97 <=? c) && (c <=? 122)
   || (c =? 95))%N.

Definition is_word_opt (c : option N) : bool :=
  match c with Some c => is_word c | None => false end.

(** [\b] between two neighbouring positions *)
Definition boundary (prev next : option N) : bool := xorb (is_word_opt prev) (is_word_opt next).

(** [w] matches at the head of [s], letter case ignored: the last character
    matched and the text after the match. *)
Fixpoint match_here (w s : str) (prev : option N) : option (option N * str) :=
  match w with
  | [] => Some (prev, s)
  | a :: w' =>
      match s with
      | [] => None
      | c :: s' => if N.eqb (lower a) (lower c) then match_here w' s' (Some c) else None
      end
  end.

Fixpoint word_search_from (prev : option N) (w s : str) : bool :=
  match match_here w s prev with
  | Some (last, rest) => boundary prev (head s) && boundary last (head rest)
  | None => false
  end
  || match s with
     | [] => false
     | c :: s' => word_search_from (Some c) w s'
     end.

Definition word_pattern (w : string) : Pattern :=
  {| pattern := lit "\b" ++ lit w ++ lit "\b";
     search := word_search_from None (lit w) |}.

Definition DEFAULT_PATTERNS : list Pattern :=
  List.map word_pattern
    ["error"; "failed"; "failure"; "traceback"; "panic"; "fatal"; "exception";
     "segmentation fault"; "killed"; "oom"]%string.

(** ** Notifier *)

(** What the library does with a request once the URL is known to have a
    type: [urllib.request.urlopen] returns a response with a status, or
    raises; or [urllib.request.Request] itself raises before [urlopen] is
    called (an invalid host, say). *)
Inductive http_result := HttpStatus (status : Z) | HttpError | RequestError.

(** *** The URL check of [urllib.request.Request]

    [Request.__init__] unwraps the URL, cuts the fragment after the last
    [#] and raises [ValueError] ("unknown url type") unless what is left
    starts with a type: one or more characters other than [/] and [:],
    followed by [:]. *)

(** [c.isspace()] *)
Definition is_space (c : N) : bool :=
  ((9 <=? c) && (c <=? 13) || (28 <=? c) && (c <=? 32) || (c =? 133) || (c =? 160)
   || (c =? 5760) || (8192 <=? c) && (c <=? 8202) || (c =? 8232) || (c =? 8233)
   || (c =? 8239) || (c =? 8287) || (c =? 12288))%N.

Fixpoint lstrip (s : str) : str :=
  match s with
  | [] => []
  | c :: r => if is_space c then lstrip r else s
  end.

(** [s.strip()] *)
Definition strip (s : str) : str := rev (lstrip (rev (lstrip s))).

(** [urllib.parse.unwrap] *)
Definition unwrap (u : str) : str :=
  let u := strip u in
  let u := if bool_decide (firstn 1 u = lit "<") && bool_decide (firstn 1 (rev u) = lit ">")
           then strip (removelast (tl u)) else u in
  if bool_decide (firstn 4 u = lit "URL:") then strip (skipn 4 u) else u.

(** [u.rpartition('#')]: the text before the last [#], if there is one. *)
Fixpoint before_last_hash (u : str) : option str :=
  match u with
  | [] => None
  | c :: r =>
      match before_last_hash r with
      | Some p => Some (c :: p)
      | None => if (c =? 35)%N then Some [] else None
      end
  end.

(** [urllib.parse._splittype] finds a type at the start of [u]; [seen]
    tells that a character of the type has been read. *)
Fixpoint has_type_from (seen : bool) (u : str) : bool :=
  match u with
  | [] => false
  | c :: r =>
      if (c =? 58)%N then seen
      else if (c =? 47)%N then false
      else has_type_from true r
  end.

(** The URL passes the check of [Request.__init__]. *)
Definition url_has_type (u : str) : bool :=
  let u := unwrap u in
  has_type_from false (default u (before_last_hash u)).

Record Request := {
  url : str;
  data : bytes;
  headers : list (str * str)
}.

Record Notifier := {
  topic_url : str;
  last_notify : gmap str Q;
  rate_limit : Q
}.

Definition Notifier_init (topic : str) : Notifier :=
  {| topic_url := topic; last_notify := ∅; rate_limit := 10%Q |}.

(** [f'{event.event_type}:{event.command}'] *)
Definition notify_key (event : Event) : str := event_type event ++ lit ":" ++ command event.

(** [key in self.last_notify and now - self.last_notify[key] < self.rate_limit] *)
Definition rate_limited (now : Q) (key : str) (n : Notifier) : bool :=
  match last_notify n !! key with
  | Some t => if Qlt_le_dec (now - t) (rate_limit n) then true else false
  | None => false
  end.

(** [event.context[-500:]] *)
Definition context_snippet (event : Event) : str := last_n 500 (context event).

Definition notify_body (event : Event) : str :=
  let body := message event ++ [NL] ++ lit "Command: " ++ command event in
  match context event with
  | [] => body
  | _ :: _ => body ++ [NL; NL] ++ context_snippet event
  end.

(** [priority_map.get(event.priority, '3')] *)
Definition priority_level (p : str) : str :=
  if bool_decide (p = lit "low") then lit "2"
  else if bool_decide (p = lit "default") then lit "3"
  else if bool_decide (p = lit "high") then lit "4"
  else if bool_decide (p = lit "urgent") then lit "5"
  else lit "3".

Definition notify_headers (event : Event) : list (str * str) :=
  [(lit "Title", lit "[watchd] " ++ event_type event);
   (lit "Priority", priority_level (priority event));
   (lit "Tags", join (lit ",") (tags event))].

(** [Notifier.send] from [self.last_notify[key] = now] on, for a call that
    passed the rate limit: the time is stored, then the body is encoded
    and the request is built and sent inside the [try], whose handler
    turns every exception into [False].  [http] is what the library does
    with the request. *)
Definition send_store (now : Q) (http : http_result) (event : Event) (n : Notifier)
    : bool * Notifier * option Request :=
  let n' := {| topic_url := topic_url n;
               last_notify := <[notify_key event := now]> (last_notify n);
               rate_limit := rate_limit n |} in
  match utf8_encode (notify_body event) with
  | None => (false, n', None)                    (* UnicodeEncodeError *)
  | Some body =>
      if url_has_type (topic_url n) then
        let req := {| url := topic_url n; data := body; headers := notify_headers event |} in
        match http with
        | HttpStatus st => ((st =? 200)%Z, n', Some req)
        | HttpError => (false, n', Some req)
        | RequestError => (false, n', None)
        end
      else (false, n', None)                     (* ValueError: unknown url type *)
  end.

(** [Notifier.send]: [now] is the reading of [time.time()].  The result is
    the value returned, the notifier afterwards and the request passed to
    [urlopen], if any. *)
Definition send (now : Q) (http : http_result) (event : Event) (n : Notifier)
    : bool * Notifier * option Request :=
  if rate_limited now (notify_key event) n then (false, n, None)
  else send_store now http event n.

(** A sequence of [send] calls on one notifier: each call comes with its
    clock reading and the behaviour of the endpoint.  The result lists, in
    order, the reading and the key of every call that reached [urlopen]. *)
Fixpoint send_all (calls : list (Q * http_result * Event)) (n : Notifier)
    : list (Q * str) * Notifier :=
  match calls with
  | [] => ([], n)
  | (now, http, event) :: rest =>
      let '(_, n', req) := send now http event n in
      let '(posts, n'') := send_all rest n' in
      (match req with Some _ => (now, notify_key event) :: posts | None => posts end, n'')
  end.

(** ** Session *)

(** *** Values and results of the library calls of the event loop *)

(** A value built by [json.loads]; a [dict] is given by its items. *)
Inductive json :=
| JNull
| JBool (b : bool)
| JInt (z : Z)
| JFloat (q : Q)
| JStr (s : str)
| JList (l : list json)
| JDict (items : list (str * json)).

(** [d.get(k)] on the items of a dict *)
Fixpoint dict_get (k : str) (items : list (str * json)) : option json :=
  match items with
  | [] => None
  | (k', v) :: rest => if bool_decide (k = k') then Some v else dict_get k rest
  end.

(** [v == s] for a value [v = d.get(k)] and a string literal [s] *)
Definition is_str (v : option json) (s : str) : bool :=
  match v with
  | Some (JStr x) => bool_decide (x = s)
  | _ => false
  end.

Inductive exn :=
| UnicodeDecodeError | UnicodeEncodeError | AttributeError | StructError | RecursionError.

(** [json.loads(data.decode('utf-8').strip())] for a chunk [data] *)
Inductive loads_result :=
| DecodeFailed                (* UnicodeDecodeError *)
| LoadsFailed                 (* json.JSONDecodeError *)
| LoadsTooDeep                (* RecursionError: brackets nested too deep *)
| Loaded (msg : json).

(** [select.select([master_fd, client], [], [], timeout)] *)
Inductive select_result :=
| SelectError                 (* select.error or ValueError *)
| Readable (master client : bool).

(** [os.read(master_fd, 4096)]; [text] is [data.decode('utf-8', errors='replace')] *)
Inductive read_result :=
| ReadError                   (* OSError *)
| ReadData (data : bytes) (text : str).

(** [client.recv(4096)], with what the chunk read parses to *)
Inductive recv_result :=
| RecvError                   (* OSError *)
| RecvData (data : bytes) (parsed : loads_result).

(** [os.waitpid(child_pid, os.WNOHANG)] *)
Inductive wait_result :=
| WaitRunning                 (* pid = 0 *)
| WaitStatus (status : Z)
| WaitNoChild.                (* ChildProcessError *)

(** What one pass of the [while] loop of [_loop] meets. *)
Record Turn := {
  select_ : select_result;
  os_read : read_result;
  recv : recv_result;
  os_write_ok : bool;          (* false: OSError *)
  ioctl_ok : bool;             (* false: OSError *)
  waitpid : wait_result
}.

(** The clock, the client socket and the endpoint: [time_time k],
    [sendall k], [urlopen k] is what the call answers when it is the [k]-th
    call made to the oracle by the session. *)
Record Oracle := {
  time_time : nat -> Q;
  sendall : nat -> bool;       (* false: OSError *)
  urlopen : nat -> http_result
}.

(** The [data] argument of [_send_to_client]: a text, or the text
    [json.dumps(asdict(event))]. *)
Inductive payload := Text (s : str) | EventJson (e : Event).

(** What the session does to the outside, in order. *)
Inductive effect :=
| Select (timeout : Q)
| SendAll (msg_type : str) (body : payload) (ok : bool)
| NotifierSend (e : Event) (posted : option Request) (result : bool)
| Write (b : bytes) (ok : bool)
| Ioctl (rows cols : Z) (ok : bool)
| CloseMaster
| CloseClient.

(** The attributes of a started [Session] that the loop uses, the number
    of oracle calls made and the log of effects. *)
Record Session := {
  command_str : str;
  inactivity_timeout : option Z;
  master_fd : Z;
  detector : PatternDetector;
  notifier : Notifier;
  running : bool;
  calls : nat;
  log : list effect
}.

Definition set_detector (d : PatternDetector) (s : Session) : Session :=
  {| command_str := command_str s; inactivity_timeout := inactivity_timeout s;
     master_fd := master_fd s; detector := d; notifier := notifier s;
     running := running s; calls := calls s; log := log s |}.

Definition set_notifier (n : Notifier) (s : Session) : Session :=
  {| command_str := command_str s; inactivity_timeout := inactivity_timeout s;
     master_fd := master_fd s; detector := detector s; notifier := n;
     running := running s; calls := calls s; log := log s |}.

Definition set_running (b : bool) (s : Session) : Session :=
  {| command_str := command_str s; inactivity_timeout := inactivity_timeout s;
     master_fd := master_fd s; detector := detector s; notifier := notifier s;
     running := b; calls := calls s; log := log s |}.

Definition called (k : nat) (s : Session) : Session :=
  {| command_str := command_str s; inactivity_timeout := inactivity_timeout s;
     master_fd := master_fd s; detector := detector s; notifier := notifier s;
     running := running s; calls := calls s + k; log := log s |}.

Definition emit (e : effect) (s : Session) : Session :=
  {| command_str := command_str s; inactivity_timeout := inactivity_timeout s;
     master_fd := master_fd s; detector := detector s; notifier := notifier s;
     running := running s; calls := calls s; log := log s ++ [e] |}.

(** [Session.__init__] followed by [start] in the parent, where
    [pty.fork()] gave the descriptor [fd]. *)
Definition Session_start (argv : list str) (n : Notifier) (timeout : option Z) (fd : Z)
    : Session :=
  {| command_str := join (lit " ") argv; inactivity_timeout := timeout;
     master_fd := fd; detector := PatternDetector_init DEFAULT_PATTERNS; notifier := n;
     running := true; calls := 0; log := [] |}.

(** [time.time()] *)
Definition now (o : Oracle) (s : Session) : Q * Session := (time_time o (calls s), called 1 s).

(** [self.notifier.send(event)] *)
Definition notify (o : Oracle) (event : Event) (s : Session) : Session :=
  let '(res, n', req) :=
    send (time_time o (calls s)) (urlopen o (S (calls s))) event (notifier s) in
  emit (NotifierSend event req res) (set_notifier n' (called 2 s)).

(** [_send_to_client] *)
Definition send_to_client (o : Oracle) (msg_type : str) (body : payload) (s : Session)
    : Session :=
  let ok := sendall o (calls s) in
  let s' := emit (SendAll msg_type body ok) (called 1 s) in
  if ok then s' else set_running false s'.

(** [_finish] *)
Definition finish (s : Session) : Session :=
  emit CloseClient (emit CloseMaster (set_running false s)).

(** The wait status macros of [os], as Linux defines them. *)
Definition WIFEXITED (status : Z) : bool := (Z.land status 127 =? 0)%Z.
Definition WEXITSTATUS (status : Z) : Z := Z.shiftr (Z.land status 65280) 8.
Definition WTERMSIG (status : Z) : Z := Z.land status 127.
Definition WIFSIGNALED (status : Z) : bool :=
  let v := (Z.land status 127 + 1)%Z in
  let signed_char := if (128 <=? v)%Z then (v - 256)%Z else v in
  (0 <? Z.shiftr signed_char 1)%Z.

Definition exit_code (status : Z) : Z :=
  if WIFEXITED status then WEXITSTATUS status
  else if WIFSIGNALED status then (128 + WTERMSIG status)%Z
  else 1%Z.

(** [_handle_exit] *)
Definition handle_exit (o : Oracle) (status : Z) (s : Session) : Session :=
  let code := exit_code status in
  let s1 :=
    if (code =? 0)%Z then s
    else
      let '(t, s') := now o s in
      notify o {| event_type := lit "exit_code";
                  message := lit "Exited with code " ++ str_of_Z code;
                  priority := lit "high";
                  tags := [lit "x"];
                  timestamp := t;
                  context := [];
                  command := command_str s |} s' in
  finish (send_to_client o (lit "exit") (Text (str_of_Z code)) s1).

(** One ['H'] field of [struct.pack]: an [int] (or [bool]) from 0 to 65535. *)
Definition pack_H (v : json) : option Z :=
  match v with
  | JInt z => if ((0 <=? z) && (z <=? 65535))%Z then Some z else None
  | JBool b => Some (if b then 1%Z else 0%Z)
  | _ => None
  end.

(** [_resize]: [None] when it returns, the exception when it raises. *)
Definition resize (ok : bool) (rows cols : json) (s : Session) : option exn * Session :=
  if (master_fd s =? 0)%Z then (None, s)
  else
    match pack_H rows, pack_H cols with
    | Some r, Some c => (None, emit (Ioctl r c ok) s)
    | _, _ => (Some StructError, s)
    end.

(** *** The event loop *)

(** The local variables of [_loop] that live across passes. *)
Record Locals := { last_activity : Q; inactivity_notified : bool }.

(** How a block of the loop ends: it falls through (or [continue]s),
    it [return]s, or an exception leaves it. *)
Inductive signal := Next | Return | Raise (e : exn).

Inductive fd := Master | Client.

(** [if self.inactivity_timeout] *)
Definition armed (s : Session) : option Z :=
  match inactivity_timeout s with
  | Some t => if (t =? 0)%Z then None else Some t
  | None => None
  end.

(** The [timeout] given to [select]. *)
Definition select_timeout (o : Oracle) (loc : Locals) (s : Session) : Q * Session :=
  match armed s with
  | Some t =>
      let '(tm, s') := now o s in
      let remaining := (inject_Z t - (tm - last_activity loc))%Q in
      (Qmax (1 # 10) (Qmin 1 remaining), s')
  | None => (1%Q, s)
  end.

(** The inactivity check of a pass. *)
Definition check_inactivity (o : Oracle) (loc : Locals) (s : Session) : Session * Locals :=
  match armed s with
  | Some t =>
      if inactivity_notified loc then (s, loc)
      else
        let '(tm, s1) := now o s in
        if Qlt_le_dec (inject_Z t) (tm - last_activity loc) then
          let '(stamp, s2) := now o s1 in
          let event := {| event_type := lit "inactivity";
                          message := lit "No output for " ++ str_of_Z t ++ lit "s";
                          priority := lit "default";
                          tags := [lit "hourglass_done"];
                          timestamp := stamp;
                          context := [];
                          command := command_str s |} in
          let s3 := send_to_client o (lit "event") (EventJson event) (notify o event s2) in
          (s3, {| last_activity := last_activity loc; inactivity_notified := true |})
        else (s1, loc)
  | None => (s, loc)
  end.

(** [os.write(self.master_fd, b)] under the [except OSError: pass] of the
    client branch. *)
Definition write_master (t : Turn) (b : bytes) (s : Session) : Session :=
  emit (Write b (os_write_ok t)) s.

(** The branch [fd == self.master_fd] of the [for] loop. *)
Definition on_master (o : Oracle) (t : Turn) (loc : Locals) (s : Session)
    : signal * Session * Locals :=
  let data_text := match os_read t with
                   | ReadError => ([], [])
                   | ReadData b text => (b, text)
                   end in
  match data_text with
  | ([], _) => (Return, finish s, loc)
  | (_ :: _, text) =>
      let '(tm, s1) := now o s in
      let loc' := {| last_activity := tm; inactivity_notified := false |} in
      let s2 := send_to_client o (lit "output") (Text text) s1 in
      let '(events, d) :=
        feed (fun k => time_time o (calls s2 + k)) text (command_str s2) (detector s2) in
      let s3 := set_detector d (called (length events) s2) in
      (Next, fold_left (fun s' event => notify o event s') events s3, loc')
  end.

(** What is done with a chunk once [json.loads] has returned [msg]: the
    body of the inner [try], whose [KeyError] handler falls through to the
    raw write. *)
Definition control_frame (t : Turn) (chunk : bytes) (msg : json) (s : Session)
    : signal * Session :=
  match msg with
  | JDict items =>
      if is_str (dict_get (lit "type") items) (lit "resize") then
        let rows := default (JInt 24) (dict_get (lit "rows") items) in
        let cols := default (JInt 80) (dict_get (lit "cols") items) in
        match resize (ioctl_ok t) rows cols s with
        | (Some e, s') => (Raise e, s')
        | (None, s') => (Next, s')
        end
      else if is_str (dict_get (lit "type") items) (lit "input") then
        match dict_get (lit "data") items with
        | None => (Next, write_master t chunk s)            (* KeyError *)
        | Some (JStr x) =>
            match utf8_encode x with
            | Some b => (Next, write_master t b s)
            | None => (Raise UnicodeEncodeError, s)
            end
        | Some _ => (Raise AttributeError, s)
        end
      else (Next, write_master t chunk s)
  | _ => (Raise AttributeError, s)                          (* msg.get *)
  end.

(** The branch [fd == self.client] of the [for] loop. *)
Definition on_client (t : Turn) (s : Session) : signal * Session :=
  match recv t with
  | RecvError => (Next, s)
  | RecvData [] _ => (Next, set_running false s)
  | RecvData chunk parsed =>
      match parsed with
      | DecodeFailed => (Raise UnicodeDecodeError, s)
      | LoadsFailed => (Next, write_master t chunk s)
      | LoadsTooDeep => (Raise RecursionError, s)
      | Loaded msg => control_frame t chunk msg s
      end
  end.

(** [for fd in readable] *)
Fixpoint for_readable (o : Oracle) (t : Turn) (readable : list fd) (loc : Locals)
    (s : Session) : signal * Session * Locals :=
  match readable with
  | [] => (Next, s, loc)
  | Master :: rest =>
      match on_master o t loc s with
      | (Next, s', loc') => for_readable o t rest loc' s'
      | r => r
      end
  | Client :: rest =>
      match on_client t s with
      | (Next, s') => for_readable o t rest loc s'
      | (sig, s') => (sig, s', loc)
      end
  end.

(** The child status check that ends a pass. *)
Definition check_child (o : Oracle) (t : Turn) (s : Session) : signal * Session :=
  match waitpid t with
  | WaitRunning => (Next, s)
  | WaitStatus status => (Return, handle_exit o status s)
  | WaitNoChild => (Return, finish s)
  end.

(** How [_loop] ends. *)
Inductive outcome :=
| Returned                    (* a [return] statement *)
| Stopped                     (* the [while] test found [running] false *)
| Broke                       (* [break] after a failed [select] *)
| Uncaught (e : exn)          (* an exception left [_loop] *)
| Pending.                    (* the loop is still going after the turns given *)

(** The body of the [while] loop after [select] returned [readable]. *)
Definition pass_body (o : Oracle) (t : Turn) (readable : list fd) (loc : Locals)
    (s : Session) : signal * Session * Locals :=
  let '(s1, loc1) := check_inactivity o loc s in
  match for_readable o t readable loc1 s1 with
  | (Next, s2, loc2) =>
      let '(sig, s3) := check_child o t s2 in (sig, s3, loc2)
  | r => r
  end.

(** [while self.running] *)
Fixpoint while_running (o : Oracle) (turns : list Turn) (loc : Locals) (s : Session)
    : outcome * Session :=
  if running s then
    match turns with
    | [] => (Pending, s)
    | t :: turns' =>
        let '(timeout, s0) := select_timeout o loc s in
        match select_ t with
        | SelectError => (Broke, emit (Select timeout) s0)
        | Readable m c =>
            let readable := (if m then [Master] else []) ++ (if c then [Client] else []) in
            match pass_body o t readable loc (emit (Select timeout) s0) with
            | (Next, s', loc') => while_running o turns' loc' s'
            | (Return, s', _) => (Returned, s')
            | (Raise e, s', _) => (Uncaught e, s')
            end
        end
    end
  else (Stopped, s).

(** [_loop] *)
Definition _loop (o : Oracle) (turns : list Turn) (s : Session) : outcome * Session :=
  let '(tm, s0) := now o s in
  while_running o turns {| last_activity := tm; inactivity_notified := false |} s0.

(** ** Definitions used by the statements *)

(** A string cut into its characters, each a chunk of its own. *)
Definition chars (s : str) : list str := List.map (fun c => [c]) s.

(** The detector with [partial] replaced. *)
Definition with_partial (p : str) (d : PatternDetector) : PatternDetector :=
  {| patterns := patterns d; lines := lines d; partial := p; seen := seen d |}.

(** The event [feed] appends for a line matched by [p]. *)
Definition match_event (stamp : Q) (cmd : str) (idx : nat) (lns : list str) (p : Pattern)
    : Event :=
  {| event_type := lit "pattern_match";
     message := lit "Matched: " ++ pattern p;
     priority := lit "high";
     tags := [lit "warning"];
     timestamp := stamp;
     context := join [NL] (slice (Z.to_nat (Z.max 0 (Z.of_nat idx - 2))) (idx + 1) lns);
     command := cmd |}.

(** The pattern [feed] reports for a completed [line]: the first one that
    matches, unless the index the line gets is already in [seen]. *)
Definition line_match (line : str) (d : PatternDetector) : option Pattern :=
  if bool_decide (length (lines d) ∈ seen d) then None
  else List.find (fun p => search p line) (patterns d).

(** [self.lines] after a pass of the loop of [feed]. *)
Definition truncate (lns : list str) : list str :=
  if 500 <? length lns then last_n 250 lns else lns.

(** 501 lines, of which only the one at index 250 matches a pattern. *)
Definition stale_history : str :=
  concat (repeat (lit "ok" ++ [NL]) 250) ++ (lit "error" ++ [NL])
  ++ concat (repeat (lit "ok" ++ [NL]) 250).

(** A detector state reached by [feed] calls from the initial one. *)
Definition reached (ps : list Pattern) (clocks : nat -> nat -> Q) (history : list str)
    (cmd : str) : PatternDetector :=
  snd (feed_each clocks history cmd (PatternDetector_init ps)).

(** Two events with a context: one in ASCII, one of 500 times U+00E9. *)
Definition boom_event : Event :=
  {| event_type := lit "pattern_match"; message := lit "Matched: \berror\b";
     priority := lit "high"; tags := [lit "warning"]; timestamp := 0%Q;
     context := lit "boom error"; command := lit "sh -c x" |}.

Definition accent_event : Event :=
  {| event_type := lit "pattern_match"; message := lit "Matched: \berror\b";
     priority := lit "high"; tags := [lit "warning"]; timestamp := 0%Q;
     context := repeat 233%N 500; command := lit "sh -c x" |}.

(** The request [send] passes to [urlopen] for [event], on a fresh notifier
    and with an endpoint that answers 200. *)
Definition first_request (event : Event) : option Request :=
  snd (send 0%Q (HttpStatus 200) event (Notifier_init (lit "https://ntfy.sh/watchd-alerts"))).

(** A notifier that has sent [boom_event] at time 0. *)
Definition notifier_after_boom : Notifier :=
  snd (send_all [(0%Q, HttpStatus 200, boom_event)]
         (Notifier_init (lit "https://ntfy.sh/watchd-alerts"))).

(** *** Logs *)

Definition is_exit_frame (e : effect) : bool :=
  match e with
  | SendAll msg_type _ _ => bool_decide (msg_type = lit "exit")
  | _ => false
  end.

Definition is_close (e : effect) : bool :=
  match e with
  | CloseMaster | CloseClient => true
  | _ => false
  end.

Definition is_write (e : effect) : bool :=
  match e with
  | Write _ _ => true
  | _ => false
  end.

(** From [s] to [s'] the log grew, by no [exit] frame. *)
Definition quiet (s s' : Session) : Prop :=
  exists mid, log s' = log s ++ mid /\ Forall (fun e => is_exit_frame e = false) mid.

(** From [s] to [s'] the log grew by entries that end with an [exit]
    frame and the two closes, and hold no other [exit] frame. *)
Definition exits (s s' : Session) : Prop :=
  exists mid code ok,
    log s' = log s ++ mid ++ [SendAll (lit "exit") (Text (str_of_Z code)) ok;
                              CloseMaster; CloseClient] /\
    Forall (fun e => is_exit_frame e = false) mid.

(** *** Control frames, in the words of the specification

    A chunk is a control frame when it parses as a JSON object with a
    [type] field equal to [resize] or [input]. *)
Definition spec_control_frame (parsed : loads_result) : bool :=
  match parsed with
  | Loaded (JDict items) =>
      is_str (dict_get (lit "type") items) (lit "resize")
      || is_str (dict_get (lit "type") items) (lit "input")
  | _ => false
  end.

(** *** Sessions and turns of the examples *)

Definition bytes_of (s : string) : bytes := List.map byte_of_ascii (list_ascii_of_string s).

Definition dq : string := String (ascii_of_nat 34) EmptyString.

(** An oracle whose clock advances by a second per call, whose client
    socket accepts everything and whose endpoint answers 200. *)
Definition fair : Oracle :=
  {| time_time := fun k => inject_Z (Z.of_nat k);
     sendall := fun _ => true;
     urlopen := fun _ => HttpStatus 200 |}.

(** A session started for [sh -c x], without inactivity timeout, on
    descriptor 5. *)
Definition sh_session : Session :=
  Session_start [lit "sh"; lit "-c"; lit "x"]
    (Notifier_init (lit "https://ntfy.sh/watchd-alerts")) None 5.

(** A turn where [select] times out and the child is still running. *)
Definition idle_turn : Turn :=
  {| select_ := Readable false false; os_read := ReadError; recv := RecvError;
     os_write_ok := true; ioctl_ok := true; waitpid := WaitRunning |}.

(** A turn where the PTY master is readable and the read returns no byte. *)
Definition eof_turn : Turn :=
  {| select_ := Readable true false; os_read := ReadData [] []; recv := RecvError;
     os_write_ok := true; ioctl_ok := true; waitpid := WaitRunning |}.

(** A turn where the client socket is readable and [recv] returns no
    byte: the client closed its socket; the child is still running. *)
Definition client_closed_turn : Turn :=
  {| select_ := Readable false true; os_read := ReadError; recv := RecvData [] LoadsFailed;
     os_write_ok := true; ioctl_ok := true; waitpid := WaitRunning |}.

(** A turn where the client socket delivers [chunk], which parses to
    [parsed]; the child is still running. *)
Definition client_turn (chunk : bytes) (parsed : loads_result) : Turn :=
  {| select_ := Readable false true; os_read := ReadError; recv := RecvData chunk parsed;
     os_write_ok := true; ioctl_ok := true; waitpid := WaitRunning |}.

(** A turn where the child is reaped with [status]. *)
Definition reap_turn (status : Z) : Turn :=
  {| select_ := Readable false false; os_read := ReadError; recv := RecvError;
     os_write_ok := true; ioctl_ok := true; waitpid := WaitStatus status |}.

(** The chunk [{"type":"input"}] and what [json.loads] makes of it. *)
Definition input_without_data : bytes :=
  bytes_of ("{" ++ dq ++ "type" ++ dq ++ ":" ++ dq ++ "input" ++ dq ++ "}")%string.

Definition input_without_data_msg : json := JDict [(lit "type", JStr (lit "input"))].

(** The chunk [{"type":"resize","rows":"40"}] and what [json.loads] makes
    of it. *)
Definition resize_rows_string : bytes :=
  bytes_of ("{" ++ dq ++ "type" ++ dq ++ ":" ++ dq ++ "resize" ++ dq ++ ","
            ++ dq ++ "rows" ++ dq ++ ":" ++ dq ++ "40" ++ dq ++ "}")%string.

Definition resize_rows_string_msg : json :=
  JDict [(lit "type", JStr (lit "resize")); (lit "rows", JStr (lit "40"))].

(** The event of [_handle_exit]. *)
Definition exit_event (stamp : Q) (code : Z) (cmd : str) : Event :=
  {| event_type := lit "exit_code";
     message := lit "Exited with code " ++ str_of_Z code;
     priority := lit "high";
     tags := [lit "x"];
     timestamp := stamp;
     context := [];
     command := cmd |}.

(** The locals of [_loop] when it starts at time 0. *)
Definition fresh_locals : Locals := {| last_activity := 0%Q; inactivity_notified := false |}.

(** ** Further definitions used by the statements *)

(** The lines a text completes, in order: [s.split('\n')] without its last
    element. *)
Fixpoint split_lines (fuel : nat) (s : str) : list str :=
  match fuel with
  | 0 => []
  | S fuel' =>
      match split_nl s with
      | Some (line, rest) => line :: split_lines fuel' rest
      | None => []
      end
  end.

Definition completed_lines (s : str) : list str := split_lines (length s) s.

(** What a detector that forgets nothing would report for the lines [new]
    that follow the lines [lns]: for each line matched by a pattern, one
    event, for the first pattern that matches, with the line and up to two
    lines before it as context (all fields but the timestamp). *)
Fixpoint expected_views (ps : list Pattern) (cmd : str) (lns new : list str)
    : list (str * str * str * list str * str * str) :=
  match new with
  | [] => []
  | line :: rest =>
      match List.find (fun p => search p line) ps with
      | Some p => [event_view (match_event 0%Q cmd (length lns) (lns ++ [line]) p)]
      | None => []
      end ++ expected_views ps cmd (lns ++ [line]) rest
  end.

(** The history and the reported set of a detector are bounded. *)
Definition bounded (d : PatternDetector) : Prop :=
  length (lines d) <= 500 /\ forall i, i ∈ seen d -> i <= 500.

(** *** More on logs *)

(** From [s] to [s'] the log grew, by entries that satisfy [P]. *)
Definition grows (P : effect -> Prop) (s s' : Session) : Prop :=
  exists mid, log s' = log s ++ mid /\ Forall P mid.

(** From [s] to [s'] the session was torn down: [running] is false and the
    log grew by entries that end with the two closes, in the order of
    [_finish], and hold no other close. *)
Definition torn_down (s s' : Session) : Prop :=
  running s' = false /\
  exists mid, log s' = log s ++ mid ++ [CloseMaster; CloseClient] /\
              Forall (fun e => is_close e = false) mid.

(** The [event] frames: the ones the inactivity check sends. *)
Definition is_event_frame (e : effect) : bool :=
  match e with
  | SendAll msg_type _ _ => bool_decide (msg_type = lit "event")
  | _ => false
  end.

Definition event_frames (s : Session) : nat := length (List.filter is_event_frame (log s)).

(** The events passed to [notifier.send], in order. *)
Definition notified (l : list effect) : list Event :=
  flat_map (fun e => match e with NotifierSend ev _ _ => [ev] | _ => [] end) l.

(** [select] reported the PTY master readable. *)
Definition master_ready (t : Turn) : bool :=
  match select_ t with
  | Readable true _ => true
  | _ => false
  end.

(** ** Daemon: the sweep of the registry

    [self.sessions = [s for s in self.sessions if s.running]] *)
Definition sweep (sessions : list Session) : list Session := List.filter running sessions.

(** The inactivity events that may still be sent before the PTY gives
    output again: one, unless one has been sent in this idle window. *)
Definition owed (loc : Locals) : nat := if inactivity_notified loc then 0 else 1.

(** A chunk that is not UTF-8, or whose JSON value is not an object. *)
Definition not_an_object (parsed : loads_result) : bool :=
  match parsed with
  | DecodeFailed => true
  | LoadsFailed => false
  | LoadsTooDeep => false
  | Loaded (JDict _) => false
  | Loaded _ => true
  end.

(** The exception such a chunk raises in the client branch. *)
Definition chunk_error (parsed : loads_result) : exn :=
  match parsed with
  | DecodeFailed => UnicodeDecodeError
  | _ => AttributeError
  end.

(** A turn where the PTY master delivers [data], decoded as [text]; the
    child is still running. *)
Definition output_turn (data : bytes) (text : str) : Turn :=
  {| select_ := Readable true false; os_read := ReadData data text; recv := RecvError;
     os_write_ok := true; ioctl_ok := true; waitpid := WaitRunning |}.

(** An oracle like [fair], but whose client socket refuses everything. *)
Definition deaf : Oracle :=
  {| time_time := fun k => inject_Z (Z.of_nat k);
     sendall := fun _ => false;
     urlopen := fun _ => HttpStatus 200 |}.

(** The chunk [{"type":"resize"}] and what [json.loads] makes of it. *)
Definition resize_bare : bytes :=
  bytes_of ("{" ++ dq ++ "type" ++ dq ++ ":" ++ dq ++ "resize" ++ dq ++ "}")%string.

Definition resize_bare_items : list (str * json) := [(lit "type", JStr (lit "resize"))].





(** Lines with their newlines, put together again. *)
Definition unlines (lns : list str) : str := concat (List.map (fun l => l ++ [NL]) lns).

(** ** The rate limit, in the words of the specification

    Keyed by (kind, command): a call within 10 seconds of the last
    recorded call for its key is refused; any other call is recorded with
    its time.  The state lists the recorded calls, the latest first. *)
Fixpoint spec_last (kind cmd : str) (st : list (str * str * Q)) : option Q :=
  match st with
  | [] => None
  | (k, c, t) :: rest =>
      if bool_decide (k = kind /\ c = cmd) then Some t else spec_last kind cmd rest
  end.

Definition spec_limited (now : Q) (event : Event) (st : list (str * str * Q)) : bool :=
  match spec_last (event_type event) (command event) st with
  | Some t => if Qlt_le_dec (now - t) 10 then true else false
  | None => false
  end.

Fixpoint spec_run (calls : list (Q * http_result * Event)) (st : list (str * str * Q))
    : list (str * str * Q) :=
  match calls with
  | [] => st
  | (now, _, event) :: rest =>
      spec_run rest
        (if spec_limited now event st then st
         else (event_type event, command event, now) :: st)
  end.

(** A kind without a colon, as the three kinds of the program are: the key
    [kind:command] then tells kind and command apart. *)
Definition colon_free (kind : str) : bool := forallb (fun c => negb (c =? 58)%N) kind.

(** The notifier and the spec-side state agree on every key. *)
Definition agree (n : Notifier) (st : list (str * str * Q)) : Prop :=
  rate_limit n = 10%Q /\
  forall kind cmd, colon_free kind = true ->
    last_notify n !! (kind ++ lit ":" ++ cmd) = spec_last kind cmd st.

(** The default of [WATCHD_NTFY_URL]. *)
Definition NTFY_URL : str := lit "https://ntfy.sh/watchd-alerts".

(** Two calls of [send] by the threads of two sessions on the notifier
    they share, scheduled so that the second thread runs the test of the
    rate limit (line 93) before the first has stored its time (line 95):
    both tests see the notifier as it was.  The result lists the requests
    that reached [urlopen], as [send_all] does. *)
Definition send_overlapped (a b : Q * http_result * Event) (n : Notifier)
    : list (Q * str) * Notifier :=
  let '(now_a, http_a, event_a) := a in
  let '(now_b, http_b, event_b) := b in
  let limited_a := rate_limited now_a (notify_key event_a) n in
  let limited_b := rate_limited now_b (notify_key event_b) n in
  let '(posts_a, n1) :=
    if limited_a then ([], n)
    else let '(_, n', req) := send_store now_a http_a event_a n in
         (match req with Some _ => [(now_a, notify_key event_a)] | None => [] end, n') in
  let '(posts_b, n2) :=
    if limited_b then ([], n1)
    else let '(_, n', req) := send_store now_b http_b event_b n1 in
         (match req with Some _ => [(now_b, notify_key event_b)] | None => [] end, n') in
  (posts_a ++ posts_b, n2).



(** The chunk of a user who types [ls] and a newline: no JSON. *)
Definition typed_ls : bytes := ["l"; "s"; "010"]%byte.

(** The chunk [{"type":"input","data":"ls\n"}] and the items of the
    object [json.loads] makes of it. *)
Definition input_ls : bytes :=
  bytes_of ("{" ++ dq ++ "type" ++ dq ++ ":" ++ dq ++ "input" ++ dq ++ ","
            ++ dq ++ "data" ++ dq ++ ":" ++ dq ++ "ls\n" ++ dq ++ "}")%string.

Definition input_ls_items : list (str * json) :=
  [(lit "type", JStr (lit "input")); (lit "data", JStr (lit "ls" ++ [NL]))].

(** * Strings and patterns: the model on examples *)

Example str_of_Z_examples :
  str_of_Z 0 = lit "0" /\ str_of_Z 1 = lit "1" /\ str_of_Z 137 = lit "137".
Proof. repeat split; reflexivity. Qed.

Example split_nl_example :
  split_nl (lit "ab" ++ [NL] ++ lit "cd" ++ [NL]) = Some (lit "ab", lit "cd" ++ [NL]).
Proof. reflexivity. Qed.

Example word_search_examples :
  search (word_pattern "error") (lit "an Error here") = true /\
  search (word_pattern "error") (lit "errors") = false /\
  existsb (fun p => search p (lit "Segmentation fault (core dumped)")) DEFAULT_PATTERNS
    = true /\
  existsb (fun p => search p (lit "all good")) DEFAULT_PATTERNS = false.
Proof. repeat split; reflexivity. Qed.

Example utf8_encode_example :
  utf8_encode [233; 8364; 128512]%N =
    Some [xc3; xa9; xe2; x82; xac; xf0; x9f; x98; x80]%byte /\
  utf8_encode [55296%N] = None.
Proof. split; reflexivity. Qed.

(** * PatternDetector: properties of [feed] *)

Lemma for_patterns_seen clock cmd line idx lns ps (sn : gset nat) events :
  idx ∈ sn -> for_patterns clock cmd line idx lns ps sn events = (sn, events).
Proof.
  intros Hin. induction ps as [|p ps IH]; simpl; [done|].
  rewrite bool_decide_true by done. rewrite andb_false_r. exact IH.
Qed.

Lemma for_patterns_fresh clock cmd line idx lns ps (sn : gset nat) events :
  idx ∉ sn ->
  for_patterns clock cmd line idx lns ps sn events =
    match List.find (fun p => search p line) ps with
    | Some p => ({[idx]} ∪ sn, events ++ [match_event (clock (length events)) cmd idx lns p])
    | None => (sn, events)
    end.
Proof.
  intros Hnin. induction ps as [|p ps IH]; simpl; [done|].
  rewrite bool_decide_false by done.
  destruct (search p line); simpl; [|exact IH].
  apply for_patterns_seen. set_solver.
Qed.

Lemma feed_line_eq clock cmd line rest d events :
  feed_line clock cmd line rest d events =
    ({| patterns := patterns d;
        lines := truncate (lines d ++ [line]);
        partial := rest;
        seen := match line_match line d with
                | Some _ => {[length (lines d)]} ∪ seen d
                | None => seen d
                end |},
     events ++ match line_match line d with
               | Some p => [match_event (clock (length events)) cmd (length (lines d))
                              (lines d ++ [line]) p]
               | None => []
               end).
Proof.
  unfold feed_line, line_match, truncate.
  replace (length (lines d ++ [line]) - 1) with (length (lines d))
    by (rewrite length_app; simpl; lia).
  case_bool_decide as Hs.
  - rewrite for_patterns_seen by done. by rewrite app_nil_r.
  - rewrite for_patterns_fresh by done.
    destruct (List.find _ _); [done|]. by rewrite app_nil_r.
Qed.

(** C8. Whatever the patterns of the detector and however many of them
    match, a completed line adds at most one event to the list [feed]
    returns, and the context of that event is the newline-joined slice
    [max(0, idx-2) .. idx] (inclusive) of the lines, [idx] being the index
    of the line. *)
Theorem feed_line_at_most_one_event clock cmd line rest d events :
  exists new,
    snd (feed_line clock cmd line rest d events) = events ++ new /\
    length new <= 1 /\
    Forall (fun e =>
      let idx := length (lines d) in
      event_type e = lit "pattern_match" /\
      context e = join [NL] (slice (Z.to_nat (Z.max 0 (Z.of_nat idx - 2))) (idx + 1)
                               (lines d ++ [line]))) new.
Proof.
  rewrite feed_line_eq. simpl.
  destruct (line_match line d) as [p|]; eexists; (split; [reflexivity|]); simpl.
  - split; [lia|]. constructor; [|constructor]. simpl. done.
  - split; [lia|]. constructor.
Qed.

(** The slice of the context is the last three lines (fewer at the start). *)
Lemma context_slice_last3 (lns : list str) (line : str) :
  let idx := length lns in
  slice (Z.to_nat (Z.max 0 (Z.of_nat idx - 2))) (idx + 1) (lns ++ [line])
  = last_n 3 (lns ++ [line]).
Proof.
  simpl. unfold slice, last_n. rewrite length_app. simpl.
  replace (Z.to_nat (Z.max 0 (Z.of_nat (length lns) - 2))) with (length lns + 1 - 3) by lia.
  apply firstn_all2. rewrite length_skipn, length_app. simpl. lia.
Qed.

(** *** Chunking does not matter *)

Lemma split_nl_app p q line rest :
  split_nl p = Some (line, rest) -> split_nl (p ++ q) = Some (line, rest ++ q).
Proof.
  revert line rest. induction p as [|c p IH]; intros line rest; simpl; [done|].
  destruct (N.eqb c NL).
  - intros [= <- <-]. done.
  - destruct (split_nl p) as [[l r]|]; [|done].
    intros [= <- <-]. by rewrite (IH _ _ eq_refl).
Qed.

Lemma split_nl_length p line rest :
  split_nl p = Some (line, rest) -> length rest < length p.
Proof.
  revert line rest. induction p as [|c p IH]; intros line rest; simpl; [done|].
  destruct (N.eqb c NL).
  - intros [= <- <-]. lia.
  - destruct (split_nl p) as [[l r]|]; [|done].
    intros [= <- <-]. specialize (IH _ _ eq_refl). lia.
Qed.

Lemma split_nl_none_app p q : split_nl p = None -> split_nl (p ++ q) =
  match split_nl q with Some (line, rest) => Some (p ++ line, rest) | None => None end.
Proof.
  induction p as [|c p IH]; simpl.
  - intros _. by destruct (split_nl q) as [[? ?]|].
  - destruct (N.eqb c NL); [done|].
    destruct (split_nl p) as [[l r]|]; [done|]. intros _. rewrite IH by done.
    by destruct (split_nl q) as [[? ?]|].
Qed.

(** Fuel beyond the length of [partial] changes nothing. *)
Lemma feed_loop_fuel f f' clock cmd d events :
  length (partial d) <= f -> length (partial d) <= f' ->
  feed_loop f clock cmd d events = feed_loop f' clock cmd d events.
Proof.
  revert f' d events. induction f as [|f IH]; intros f' d events Hf Hf'.
  - destruct (partial d) eqn:Hp; [|simpl in Hf; lia].
    destruct f'; simpl; [done|]. by rewrite Hp.
  - destruct f' as [|f'].
    + destruct (partial d) eqn:Hp; [|simpl in Hf'; lia]. simpl. by rewrite Hp.
    + simpl. destruct (split_nl (partial d)) as [[line rest]|] eqn:Hs; [|done].
      apply split_nl_length in Hs. rewrite feed_line_eq.
      apply IH; simpl; lia.
Qed.

(** The loop leaves no newline in [partial]. *)
Lemma feed_loop_partial f clock cmd d events :
  length (partial d) <= f ->
  split_nl (partial (fst (feed_loop f clock cmd d events))) = None /\
  length (partial (fst (feed_loop f clock cmd d events))) <= length (partial d).
Proof.
  revert d events. induction f as [|f IH]; intros d events Hf.
  - simpl. destruct (partial d); [done|simpl in Hf; lia].
  - simpl. destruct (split_nl (partial d)) as [[line rest]|] eqn:Hs; [|done].
    pose proof (split_nl_length _ _ _ Hs) as Hl. rewrite feed_line_eq.
    match goal with |- context [feed_loop f clock cmd ?d' ?e'] =>
      destruct (IH d' e') as [H1 H2]; [simpl; lia|] end.
    split; [done|]. simpl in H2. lia.
Qed.

(** The detector after the loop and the fields of the events other than
    the timestamp depend neither on the clock nor on the events gathered
    before. *)
Lemma feed_loop_view f clock clock' cmd d events :
  fst (feed_loop f clock cmd d events) = fst (feed_loop f clock' cmd d []) /\
  List.map event_view (snd (feed_loop f clock cmd d events)) =
    List.map event_view events ++ List.map event_view (snd (feed_loop f clock' cmd d [])).
Proof.
  revert d events clock clock'. induction f as [|f IH]; intros d events clock clock'.
  - simpl. by rewrite app_nil_r.
  - simpl. destruct (split_nl (partial d)) as [[line rest]|]; simpl;
      [|by rewrite app_nil_r].
    rewrite !feed_line_eq.
    match goal with |- context [feed_loop f clock cmd ?d' ?e'] =>
      destruct (IH d' e' clock clock') as [H1 H2] end.
    match goal with |- context [feed_loop f clock' cmd ?d' (_ ++ ?e')] =>
      destruct (IH d' ([] ++ e') clock' clock') as [H3 H4] end.
    rewrite H1, H2, H3, H4. split; [done|].
    rewrite !List.map_app, <- !app_assoc. simpl.
    by destruct (line_match line d).
Qed.

(** Text that arrives later can as well be in [partial] from the start. *)
Lemma feed_loop_app f f1 f2 clock cmd d events q :
  length (partial d) <= f ->
  length (partial d ++ q) <= f1 ->
  length (partial (fst (feed_loop f clock cmd d events)) ++ q) <= f2 ->
  feed_loop f1 clock cmd (with_partial (partial d ++ q) d) events =
  feed_loop f2 clock cmd
    (with_partial (partial (fst (feed_loop f clock cmd d events)) ++ q)
                  (fst (feed_loop f clock cmd d events)))
    (snd (feed_loop f clock cmd d events)).
Proof.
  revert f1 f2 d events. induction f as [|f IH]; intros f1 f2 d events Hf Hf1 Hf2.
  - simpl in *. by apply feed_loop_fuel.
  - simpl in *. destruct (split_nl (partial d)) as [[line rest]|] eqn:Hs.
    + pose proof (split_nl_length _ _ _ Hs) as Hl.
      rewrite feed_line_eq in *.
      destruct f1 as [|f1]; [rewrite length_app in Hf1; lia|].
      simpl. rewrite (split_nl_app _ q _ _ Hs). rewrite feed_line_eq. simpl.
      match goal with |- _ = feed_loop f2 _ _ (with_partial _ (fst (feed_loop f _ _ ?d' ?e'))) _ =>
        rewrite <- (IH f1 f2 d' e') end; simpl; try done; try lia.
      rewrite length_app in *. lia.
    + simpl in *. by apply feed_loop_fuel.
Qed.

Lemma feed_eq clock data cmd d :
  feed clock data cmd d =
    (snd (feed_loop (length (partial d ++ data)) clock cmd
            (with_partial (partial d ++ data) d) []),
     fst (feed_loop (length (partial d ++ data)) clock cmd
            (with_partial (partial d ++ data) d) [])).
Proof.
  unfold feed, with_partial. simpl. by destruct (feed_loop _ _ _ _ _).
Qed.

Lemma feed_loop_none f clock cmd d events :
  split_nl (partial d) = None -> feed_loop f clock cmd d events = (d, events).
Proof. intros H. destruct f; simpl; [done|]. by rewrite H. Qed.

Lemma feed_partial clock data cmd d :
  split_nl (partial (snd (feed clock data cmd d))) = None.
Proof.
  rewrite feed_eq. simpl. apply feed_loop_partial. simpl. lia.
Qed.

(** Feeding [a ++ b] at once or [a] and then [b]: the same detector
    afterwards, the same events up to their timestamps. *)
Lemma feed_app clock clock1 clock2 a b cmd d :
  snd (feed clock (a ++ b) cmd d) = snd (feed clock2 b cmd (snd (feed clock1 a cmd d))) /\
  List.map event_view (fst (feed clock (a ++ b) cmd d)) =
    List.map event_view (fst (feed clock1 a cmd d)) ++
    List.map event_view (fst (feed clock2 b cmd (snd (feed clock1 a cmd d)))).
Proof.
  rewrite !feed_eq. simpl.
  set (d0 := with_partial (partial d ++ a) d).
  set (La := feed_loop (length (partial d ++ a)) clock1 cmd d0 []).
  assert (Hd : with_partial (partial d ++ a ++ b) d = with_partial (partial d0 ++ b) d0)
    by (unfold d0, with_partial; simpl; by rewrite app_assoc).
  rewrite Hd.
  assert (Hfuel : length (partial d0) <= length (partial d ++ a)) by (simpl; lia).
  rewrite (feed_loop_app (length (partial d ++ a)) _
             (length (partial (fst (feed_loop (length (partial d ++ a)) clock cmd d0 [])) ++ b))
             clock cmd d0 [] b Hfuel); [|simpl; rewrite !length_app; lia|lia].
  destruct (feed_loop_view (length (partial d ++ a)) clock clock1 cmd d0 []) as [Hs Hv].
  fold La in Hs, Hv. rewrite Hs. simpl in Hv.
  match goal with |- context [feed_loop ?f clock cmd ?X ?ev] =>
    destruct (feed_loop_view f clock clock2 cmd X ev) as [Hs2 Hv2] end.
  rewrite Hs2, Hv2, Hv. done.
Qed.

(** Feeding chunk by chunk or the whole text at once. *)
Lemma feed_each_concat clocks clock chunks cmd d :
  split_nl (partial d) = None ->
  snd (feed_each clocks chunks cmd d) = snd (feed clock (concat chunks) cmd d) /\
  List.map event_view (fst (feed_each clocks chunks cmd d)) =
    List.map event_view (fst (feed clock (concat chunks) cmd d)).
Proof.
  revert clocks d. induction chunks as [|c cs IH]; intros clocks d Hd.
  - simpl. rewrite feed_eq. simpl. rewrite app_nil_r.
    rewrite feed_loop_none by done. simpl. by destruct d.
  - simpl.
    destruct (feed_app clock (clocks 0) clock c (concat cs) cmd d) as [Hs Hv].
    rewrite Hs, Hv.
    destruct (feed (clocks 0) c cmd d) as [ev d'] eqn:Hf. simpl.
    assert (Hd' : split_nl (partial d') = None).
    { replace d' with (snd (feed (clocks 0) c cmd d)) by (by rewrite Hf).
      apply feed_partial. }
    destruct (IH (fun i => clocks (S i)) d' Hd') as [IHs IHv].
    destruct (feed_each _ cs cmd d') as [evs d'']. simpl in *.
    rewrite List.map_app, IHs, IHv. done.
Qed.

Lemma concat_chars s : concat (chars s) = s.
Proof. induction s as [|c s IH]; simpl; [done|]. by rewrite IH. Qed.

Lemma feed_each_partial clocks chunks cmd d :
  split_nl (partial d) = None ->
  split_nl (partial (snd (feed_each clocks chunks cmd d))) = None.
Proof.
  revert clocks d. induction chunks as [|c cs IH]; intros clocks d Hd; simpl; [done|].
  destruct (feed (clocks 0) c cmd d) as [ev d'] eqn:Hf.
  specialize (IH (fun i => clocks (S i)) d').
  destruct (feed_each _ cs cmd d') as [evs d'']. simpl in *. apply IH.
  replace d' with (snd (feed (clocks 0) c cmd d)) by (by rewrite Hf).
  apply feed_partial.
Qed.

(** C7. In every detector state reached by [feed] calls, feeding a string
    one character at a time gives the events of a single [feed] of the
    whole string: as many, in the same order, with the same kind, message,
    context, tags, priority and command (the timestamps are the clock's);
    the detector is left in the same state. *)
Theorem feed_one_at_a_time ps clocks0 history cmd0 clocks clock s cmd :
  let d := reached ps clocks0 history cmd0 in
  List.map event_view (fst (feed_each clocks (chars s) cmd d)) =
    List.map event_view (fst (feed clock s cmd d)) /\
  snd (feed_each clocks (chars s) cmd d) = snd (feed clock s cmd d).
Proof.
  intros d.
  assert (Hd : split_nl (partial d) = None)
    by (apply feed_each_partial; reflexivity).
  destruct (feed_each_concat clocks clock (chars s) cmd d Hd) as [Hs Hv].
  rewrite concat_chars in Hs, Hv. done.
Qed.

(** C3 (the code at the failing input).  After the 501 lines of
    [stale_history] the list holds 250 lines and the reported set holds
    the index 250; the next line gets that index again, and although it
    matches a pattern [feed] returns no event for it. *)
Theorem stale_index_hides_match clock clock' cmd :
  let d := snd (feed clock stale_history cmd (PatternDetector_init DEFAULT_PATTERNS)) in
  length (lines d) = 250 /\
  bool_decide (250 ∈ seen d) = true /\
  existsb (fun p => search p (lit "error")) (patterns d) = true /\
  fst (feed clock' (lit "error" ++ [NL]) cmd d) = [] /\
  length (lines (snd (feed clock' (lit "error" ++ [NL]) cmd d))) = 251.
Proof.
  vm_compute. repeat split; reflexivity.
Qed.

(** * Notifier: properties of [send] *)

Lemma utf8_char_length c b : utf8_char c = Some b -> 1 <= length b <= 4.
Proof.
  unfold utf8_char.
  repeat match goal with |- context [if ?x then _ else _] => destruct x end;
    intros [= <-]; simpl; lia.
Qed.

Lemma utf8_char_ascii c b : (c < 128)%N -> utf8_char c = Some b -> length b = 1.
Proof.
  intros Hc. unfold utf8_char. apply N.ltb_lt in Hc. rewrite Hc. by intros [= <-].
Qed.

Lemma utf8_encode_length s bs :
  utf8_encode s = Some bs -> length bs <= 4 * length s.
Proof.
  revert bs. induction s as [|c s IH]; intros bs; simpl.
  - intros [= <-]. simpl. lia.
  - destruct (utf8_char c) as [b|] eqn:Hc; [|done].
    destruct (utf8_encode s) as [bs'|]; [|done].
    intros [= <-]. apply utf8_char_length in Hc. specialize (IH _ eq_refl).
    rewrite length_app. lia.
Qed.

Lemma utf8_encode_ascii s bs :
  Forall (fun c => (c < 128)%N) s -> utf8_encode s = Some bs -> length bs = length s.
Proof.
  intros Hs. revert bs. induction Hs as [|c s Hc Hs IH]; intros bs; simpl.
  - by intros [= <-].
  - destruct (utf8_char c) as [b|] eqn:Hb; [|done].
    destruct (utf8_encode s) as [bs'|]; [|done].
    intros [= <-]. rewrite length_app, (utf8_char_ascii _ _ Hc Hb), (IH _ eq_refl). done.
Qed.

Lemma utf8_encode_app a b bs :
  utf8_encode (a ++ b) = Some bs ->
  exists x y, utf8_encode a = Some x /\ utf8_encode b = Some y /\ bs = x ++ y.
Proof.
  revert bs. induction a as [|c a IH]; intros bs; simpl.
  - intros H. by exists [], bs.
  - destruct (utf8_char c) as [bc|]; [|done].
    destruct (utf8_encode (a ++ b)) as [r|]; [|done].
    intros [= <-]. destruct (IH _ eq_refl) as (x & y & -> & -> & ->).
    exists (bc ++ x), y. by rewrite app_assoc.
Qed.

Lemma last_n_length {A} n (l : list A) : length (last_n n l) <= n.
Proof. unfold last_n. rewrite length_skipn. lia. Qed.

Lemma last_n_suffix {A} n (l : list A) : l = firstn (length l - n) l ++ last_n n l.
Proof. unfold last_n. by rewrite firstn_skipn. Qed.

Lemma Forall_last_n {A} (P : A -> Prop) n (l : list A) : Forall P l -> Forall P (last_n n l).
Proof. unfold last_n. apply Forall_drop. Qed.

(** C9 (amended). When [send] passes a request to [urlopen] for an event
    with a context, the body ends with the encoding of the last 500
    characters of the context (all of it when it is shorter): at most 500
    characters, which is at most 2000 bytes of UTF-8, and at most 500
    bytes when the context is ASCII. *)
Theorem context_snippet_bound now http event n r n' req :
  context event <> [] ->
  send now http event n = (r, n', Some req) ->
  exists head ctx,
    data req = head ++ ctx /\
    utf8_encode (message event ++ [NL] ++ lit "Command: " ++ command event ++ [NL; NL])
      = Some head /\
    utf8_encode (context_snippet event) = Some ctx /\
    context event =
      firstn (length (context event) - 500) (context event) ++ context_snippet event /\
    length (context_snippet event) <= 500 /\
    length ctx <= 2000 /\
    (Forall (fun c => (c < 128)%N) (context event) -> length ctx <= 500).
Proof.
  intros Hctx. unfold send, send_store.
  destruct (rate_limited _ _ _); [done|].
  destruct (utf8_encode (notify_body event)) as [body|] eqn:Hbody; [|done].
  destruct (url_has_type (topic_url n)); [|done].
  intros Hreq.
  assert (Hdata : data req = body)
    by (destruct http; try done; injection Hreq as _ _ <-; done).
  unfold notify_body in Hbody.
  destruct (context event) as [|c ctx0] eqn:Hc; [done|]. rewrite <- Hc in *.
  replace ((message event ++ [NL] ++ lit "Command: " ++ command event)
           ++ [NL; NL] ++ context_snippet event)
    with ((message event ++ [NL] ++ lit "Command: " ++ command event ++ [NL; NL])
          ++ context_snippet event) in Hbody
    by (rewrite <- !app_assoc; done).
  apply utf8_encode_app in Hbody as (head & ctx & Hhead & Hsnip & ->).
  exists head, ctx. pose proof (last_n_length 500 (context event)) as Hlen.
  pose proof (utf8_encode_length _ _ Hsnip) as Hbytes.
  repeat split; try done.
  - apply last_n_suffix.
  - unfold context_snippet in *. lia.
  - intros Hascii. rewrite (utf8_encode_ascii _ _ (Forall_last_n _ 500 _ Hascii) Hsnip).
    done.
Qed.

Lemma context_snippet_bound_witness :
  context boom_event <> [] /\
  exists req, first_request boom_event = Some req /\
  exists head ctx,
    data req = head ++ ctx /\
    utf8_encode (message boom_event ++ [NL] ++ lit "Command: " ++ command boom_event
                 ++ [NL; NL]) = Some head /\
    utf8_encode (context_snippet boom_event) = Some ctx /\
    context boom_event =
      firstn (length (context boom_event) - 500) (context boom_event)
      ++ context_snippet boom_event /\
    length (context_snippet boom_event) <= 500 /\
    length ctx <= 2000 /\
    (Forall (fun c => (c < 128)%N) (context boom_event) -> length ctx <= 500).
Proof.
  split; [discriminate|].
  destruct (first_request boom_event) as [req|] eqn:Hreq; [|discriminate Hreq].
  exists req. split; [reflexivity|].
  apply (context_snippet_bound 0%Q (HttpStatus 200) boom_event
           (Notifier_init (lit "https://ntfy.sh/watchd-alerts"))
           (fst (fst (send 0%Q (HttpStatus 200) boom_event
                        (Notifier_init (lit "https://ntfy.sh/watchd-alerts")))))
           (snd (fst (send 0%Q (HttpStatus 200) boom_event
                        (Notifier_init (lit "https://ntfy.sh/watchd-alerts")))))
           req).
  - discriminate.
  - unfold first_request in Hreq.
    destruct (send _ _ _ _) as [[r n'] q]. simpl in *. by rewrite Hreq.
Defined.

(** C9 (counterexample).  A context of 500 times U+00E9 is sent whole, and
    its encoding takes 1000 bytes. *)
Lemma context_snippet_1000_bytes :
  context accent_event <> [] /\
  exists req head ctx,
    first_request accent_event = Some req /\
    data req = head ++ ctx /\
    utf8_encode (context_snippet accent_event) = Some ctx /\
    length ctx = 1000.
Proof.
  split; [discriminate|].
  destruct (first_request accent_event) as [req|] eqn:Hreq;
    [|vm_compute in Hreq; discriminate Hreq].
  destruct (utf8_encode (context_snippet accent_event)) as [ctx|] eqn:Hctx;
    [|vm_compute in Hctx; discriminate Hctx].
  exists req, (firstn (length (data req) - 1000) (data req)), ctx.
  repeat split.
  - vm_compute in Hreq, Hctx. injection Hreq as <-. injection Hctx as <-.
    vm_compute. reflexivity.
  - vm_compute in Hctx. injection Hctx as <-. vm_compute. reflexivity.
Qed.

(** *** Rate limiting *)

Lemma send_limited now http event n t :
  last_notify n !! notify_key event = Some t ->
  (now - t < rate_limit n)%Q ->
  send now http event n = (false, n, None).
Proof.
  intros Hk Hlt. unfold send, rate_limited. rewrite Hk.
  destruct (Qlt_le_dec (now - t) (rate_limit n)) as [_|Hle]; [done|].
  exfalso. apply (Qlt_not_le _ _ Hlt Hle).
Qed.

Lemma rate_limited_false now key n :
  rate_limited now key n = false <->
  (forall t, last_notify n !! key = Some t -> (rate_limit n <= now - t)%Q).
Proof.
  unfold rate_limited. destruct (last_notify n !! key) as [t|].
  - destruct (Qlt_le_dec (now - t) (rate_limit n)) as [Hlt|Hle].
    + split; [done|]. intros H. exfalso. apply (Qlt_not_le _ _ Hlt). by apply H.
    + split; [|done]. intros _ t' [= <-]. done.
  - split; [|done]. intros _ t' [=].
Qed.

Lemma send_state now http event n :
  snd (fst (send now http event n)) =
    if rate_limited now (notify_key event) n then n
    else {| topic_url := topic_url n;
            last_notify := <[notify_key event := now]> (last_notify n);
            rate_limit := rate_limit n |}.
Proof.
  unfold send, send_store. destruct (rate_limited _ _ _); [done|].
  destruct (utf8_encode _); [|done].
  destruct (url_has_type _); [by destruct http|done].
Qed.

Lemma send_passed now http event n :
  rate_limited now (notify_key event) n = false ->
  last_notify (snd (fst (send now http event n))) !! notify_key event = Some now /\
  rate_limit (snd (fst (send now http event n))) = rate_limit n /\
  (is_Some (snd (send now http event n)) <->
     is_Some (utf8_encode (notify_body event)) /\
     url_has_type (topic_url n) = true /\
     http <> RequestError).
Proof.
  intros Hr. rewrite send_state, Hr. simpl. rewrite lookup_insert_eq.
  split; [done|]. split; [done|].
  unfold send, send_store. rewrite Hr.
  destruct (utf8_encode (notify_body event)) as [body|]; simpl.
  - destruct (url_has_type (topic_url n)); simpl.
    + destruct http as [st| |]; simpl.
      * split; [intros _; repeat split; [by eexists|discriminate]|intros _; by eexists].
      * split; [intros _; repeat split; [by eexists|discriminate]|intros _; by eexists].
      * split; [intros [x Hx]; discriminate Hx|]. intros (_ & _ & Hne). by destruct Hne.
    + split; [intros [x Hx]; discriminate Hx|]. intros (_ & Hf & _). discriminate Hf.
  - split; [intros [x Hx]; discriminate Hx|]. intros ([x Hx] & _). discriminate Hx.
Qed.

Lemma send_request_passed now http event n req :
  snd (send now http event n) = Some req ->
  rate_limited now (notify_key event) n = false.
Proof. unfold send. by destruct (rate_limited _ _ _). Qed.

Lemma send_all_rate calls n : rate_limit (snd (send_all calls n)) = rate_limit n.
Proof.
  revert n. induction calls as [|[[now http] event] calls IH]; intros n; simpl; [done|].
  pose proof (send_state now http event n) as Hs.
  destruct (send now http event n) as [[r n1] req]. simpl in Hs.
  specialize (IH n1). destruct (send_all calls n1) as [posts n2]. simpl in *.
  rewrite IH, Hs. by destruct (rate_limited _ _ _).
Qed.

(** Requests for one key are at least [rate_limit] apart, and as far from
    the time stored for the key at the start. *)
Lemma send_all_apart calls n :
  (0 <= rate_limit n)%Q ->
  (forall i j ti tj key, i < j ->
     fst (send_all calls n) !! i = Some (ti, key) ->
     fst (send_all calls n) !! j = Some (tj, key) ->
     (ti + rate_limit n <= tj)%Q) /\
  (forall j tj key t0,
     fst (send_all calls n) !! j = Some (tj, key) ->
     last_notify n !! key = Some t0 ->
     (t0 + rate_limit n <= tj)%Q).
Proof.
  revert n. induction calls as [|[[now http] event] calls IH]; intros n Hrate; simpl.
  - split; intros; by rewrite lookup_nil in *.
  - pose proof (send_state now http event n) as Hs.
    pose proof (send_request_passed now http event n) as Hp.
    destruct (send now http event n) as [[r n1] req]. simpl in Hs, Hp.
    assert (Hr1 : rate_limit n1 = rate_limit n)
      by (rewrite Hs; by destruct (rate_limited _ _ _)).
    destruct (IH n1) as [IH1 IH2]; [by rewrite Hr1|].
    rewrite Hr1 in IH1, IH2.
    destruct (send_all calls n1) as [posts n2]. simpl in *.
    destruct (rate_limited now (notify_key event) n) eqn:Hlim.
    { destruct req; [by specialize (Hp _ eq_refl)|]. subst n1. by split. }
    pose proof (proj1 (rate_limited_false _ _ _) Hlim) as Hold.
    assert (Hnew : forall key t, last_notify n1 !! key = Some t ->
              (key = notify_key event /\ t = now) \/
              (key <> notify_key event /\ last_notify n !! key = Some t)).
    { intros key t. rewrite Hs. simpl.
      destruct (decide (key = notify_key event)) as [->|Hne].
      - rewrite lookup_insert_eq. intros [= <-]. by left.
      - rewrite lookup_insert_ne by done. by right. }
    assert (Hlater : forall j tj key t0, posts !! j = Some (tj, key) ->
              last_notify n !! key = Some t0 -> (t0 + rate_limit n <= tj)%Q).
    { intros j tj key t0 Hj H0.
      destruct (decide (key = notify_key event)) as [->|Hne].
      - assert (H1 : last_notify n1 !! notify_key event = Some now)
          by (rewrite Hs; simpl; apply lookup_insert_eq).
        specialize (IH2 _ _ _ _ Hj H1). specialize (Hold _ H0). lra.
      - apply (IH2 j tj key t0 Hj). rewrite Hs. simpl. by rewrite lookup_insert_ne. }
    destruct req as [req|]; [|by split].
    split.
    + intros i j ti tj key Hij Hi Hj. destruct j as [|j]; [lia|]. simpl in Hj.
      destruct i as [|i]; simpl in Hi.
      * injection Hi as <- <-. apply (IH2 j tj _ now Hj).
        rewrite Hs. simpl. apply lookup_insert_eq.
      * apply (IH1 i j ti tj key); [lia|done|done].
    + intros j tj key t0 Hj H0. destruct j as [|j]; simpl in Hj.
      * injection Hj as <- <-. specialize (Hold _ H0). lra.
      * by apply (Hlater j tj key t0).
Qed.


(** *** The key tells kind and command apart *)

Lemma colon_free_cons c kind :
  colon_free (c :: kind) = true -> c <> 58%N /\ colon_free kind = true.
Proof.
  unfold colon_free. simpl. intros H. apply andb_true_iff in H as [Hc Hk].
  split; [|done]. intros ->. discriminate Hc.
Qed.

Lemma key_inj k1 c1 k2 c2 :
  colon_free k1 = true -> colon_free k2 = true ->
  k1 ++ lit ":" ++ c1 = k2 ++ lit ":" ++ c2 -> k1 = k2 /\ c1 = c2.
Proof.
  change (lit ":") with [58%N].
  revert k2. induction k1 as [|a k1 IH]; intros k2 H1 H2; destruct k2 as [|b k2]; simpl.
  - by intros [= <-].
  - intros [= <- _]. by apply colon_free_cons in H2 as [? _].
  - intros [= -> _]. by apply colon_free_cons in H1 as [? _].
  - intros [= <- Hrest].
    apply colon_free_cons in H1 as [_ H1]. apply colon_free_cons in H2 as [_ H2].
    destruct (IH k2 H1 H2 Hrest) as [-> ->]. done.
Qed.

Lemma agree_init topic : agree (Notifier_init topic) [].
Proof. split; [done|]. intros kind cmd _. simpl. apply lookup_empty. Qed.

Lemma agree_limited now event n st :
  agree n st -> colon_free (event_type event) = true ->
  rate_limited now (notify_key event) n = spec_limited now event st.
Proof.
  intros [Hrate Hkeys] Hk. unfold rate_limited, spec_limited, notify_key.
  rewrite (Hkeys _ (command event) Hk), Hrate. done.
Qed.

Lemma agree_step now http event n st :
  agree n st -> colon_free (event_type event) = true ->
  agree (snd (fst (send now http event n)))
        (if spec_limited now event st then st
         else (event_type event, command event, now) :: st).
Proof.
  intros Ha Hk. rewrite send_state, (agree_limited now event n st Ha Hk).
  destruct (spec_limited now event st); [done|].
  destruct Ha as [Hrate Hkeys]. split; [done|].
  intros kind cmd Hkind. simpl.
  case_bool_decide as Hsame.
  - destruct Hsame as [<- <-]. apply lookup_insert_eq.
  - rewrite lookup_insert_ne; [by apply Hkeys|].
    unfold notify_key. intros Heq.
    apply key_inj in Heq as [? ?]; [|done|done]. by apply Hsame.
Qed.

Lemma agree_run history n st :
  agree n st ->
  Forall (fun c => colon_free (event_type (snd c)) = true) history ->
  agree (snd (send_all history n)) (spec_run history st).
Proof.
  intros Ha Hh. revert n st Ha.
  induction Hh as [|[[now http] event] history Hk _ IH]; intros n st Ha; simpl; [done|].
  pose proof (agree_step now http event n st Ha Hk) as Hstep.
  destruct (send now http event n) as [[r n1] req]. simpl in Hstep.
  specialize (IH n1 _ Hstep).
  by destruct (send_all history n1) as [posts n2].
Qed.

Lemma send_all_topic calls n : topic_url (snd (send_all calls n)) = topic_url n.
Proof.
  revert n. induction calls as [|[[now http] event] calls IH]; intros n; simpl; [done|].
  pose proof (send_state now http event n) as Hs.
  destruct (send now http event n) as [[r n1] req]. simpl in Hs.
  specialize (IH n1). destruct (send_all calls n1) as [posts n2]. simpl in *.
  rewrite IH, Hs. by destruct (rate_limited _ _ _).
Qed.

(** C6 (amended).  Calls of [send] that run one after another on a
    notifier, for events whose kinds hold no colon, are limited per key
    (kind, command) as the specification says.  After any such calls: a
    call that comes less than 10 seconds after the last recorded call for
    its kind and command returns false, passes no request to [urlopen]
    and leaves the notifier as it is; any other call stores its time for
    the key, whatever becomes of its request, and the request reaches
    [urlopen] exactly when the body can be encoded and the request object
    can be built; hence among the requests of calls that follow, two for
    the same key never fall in one window [w, w + 10). *)
Theorem rate_limit_window topic history calls now event :
  Forall (fun c => colon_free (event_type (snd c)) = true) history ->
  colon_free (event_type event) = true ->
  let n := snd (send_all history (Notifier_init topic)) in
  (if spec_limited now event (spec_run history [])
   then forall http, send now http event n = (false, n, None)
   else forall http,
     last_notify (snd (fst (send now http event n))) !! notify_key event = Some now /\
     (is_Some (snd (send now http event n)) <->
        is_Some (utf8_encode (notify_body event)) /\
        url_has_type topic = true /\
        http <> RequestError)) /\
  (forall w key i j ti tj,
     fst (send_all calls n) !! i = Some (ti, key) ->
     fst (send_all calls n) !! j = Some (tj, key) ->
     (w <= ti)%Q -> (ti < w + 10)%Q -> (w <= tj)%Q -> (tj < w + 10)%Q ->
     i = j).
Proof.
  intros Hhist Hkind n.
  assert (Ha : agree n (spec_run history []))
    by (apply agree_run; [apply agree_init|done]).
  assert (Hrate : rate_limit n = 10%Q) by apply Ha.
  assert (Htopic : topic_url n = topic) by (unfold n; by rewrite send_all_topic).
  pose proof (agree_limited now event n _ Ha Hkind) as Hlim.
  split.
  - destruct (spec_limited now event (spec_run history [])).
    + intros http. unfold send. by rewrite Hlim.
    + intros http.
      destruct (send_passed now http event n Hlim) as (H1 & _ & H2).
      split; [done|]. by rewrite <- Htopic.
  - intros w key i j ti tj Hi Hj Hwi Hiw Hwj Hjw.
    destruct (send_all_apart calls n) as [Hapart _]; [by rewrite Hrate|].
    rewrite Hrate in Hapart.
    destruct (Nat.lt_trichotomy i j) as [Hlt|[Heq|Hgt]]; [|done|].
    + specialize (Hapart i j ti tj key Hlt Hi Hj). lra.
    + specialize (Hapart j i tj ti key Hgt Hj Hi). lra.
Qed.

Lemma rate_limit_window_witness :
  (forall http, send 3%Q http boom_event notifier_after_boom
                = (false, notifier_after_boom, None)) /\
  (forall http,
     last_notify (snd (fst (send 12%Q http boom_event notifier_after_boom)))
       !! notify_key boom_event = Some 12%Q /\
     (is_Some (snd (send 12%Q http boom_event notifier_after_boom)) <->
        is_Some (utf8_encode (notify_body boom_event)) /\
        url_has_type NTFY_URL = true /\
        http <> RequestError)) /\
  (0 : nat) = 0.
Proof.
  assert (Hh : Forall (fun c : Q * http_result * Event =>
                         colon_free (event_type (snd c)) = true)
                 [(0%Q, HttpStatus 200, boom_event)])
    by (constructor; [reflexivity|constructor]).
  split; [|split].
  - exact (proj1 (rate_limit_window NTFY_URL [(0%Q, HttpStatus 200, boom_event)] []
                    3%Q boom_event Hh eq_refl)).
  - exact (proj1 (rate_limit_window NTFY_URL [(0%Q, HttpStatus 200, boom_event)] []
                    12%Q boom_event Hh eq_refl)).
  - refine (proj2 (rate_limit_window NTFY_URL [(0%Q, HttpStatus 200, boom_event)]
                     [(12%Q, HttpError, boom_event); (15%Q, HttpStatus 200, boom_event);
                      (30%Q, HttpStatus 200, boom_event)]
                     12%Q boom_event Hh eq_refl)
                  5%Q (notify_key boom_event) 0 0 12%Q 12%Q _ _ _ _ _ _);
      try (vm_compute; reflexivity); vm_compute; discriminate.
Defined.

(** C6 (counterexample).  Two session threads call [send] for the same key
    at times 0 and 1 on a new notifier, and the second tests the limit
    before the first has stored its time: both requests reach [urlopen],
    one second apart.  Run one after the other, the same calls send one
    request. *)
Lemma overlapped_sends_post_twice :
  fst (send_overlapped (0%Q, HttpStatus 200, boom_event) (1%Q, HttpStatus 200, boom_event)
         (Notifier_init NTFY_URL))
    = [(0%Q, notify_key boom_event); (1%Q, notify_key boom_event)] /\
  (0 <= 0)%Q /\ (0 < 0 + 10)%Q /\ (0 <= 1)%Q /\ (1 < 0 + 10)%Q /\
  fst (send_all [(0%Q, HttpStatus 200, boom_event); (1%Q, HttpStatus 200, boom_event)]
         (Notifier_init NTFY_URL))
    = [(0%Q, notify_key boom_event)].
Proof. vm_compute. repeat split; try reflexivity; discriminate. Qed.

(** * Session: properties of the event loop *)

(** ** What each step adds to the log *)

Lemma quiet_refl s : quiet s s.
Proof. exists []. by rewrite app_nil_r. Qed.

Lemma quiet_trans s1 s2 s3 : quiet s1 s2 -> quiet s2 s3 -> quiet s1 s3.
Proof.
  intros (m1 & H1 & F1) (m2 & H2 & F2). exists (m1 ++ m2).
  rewrite H2, H1, app_assoc. split; [done|]. by apply Forall_app.
Qed.

Lemma quiet_exits s1 s2 s3 : quiet s1 s2 -> exits s2 s3 -> exits s1 s3.
Proof.
  intros (m1 & H1 & F1) (m2 & code & ok & H2 & F2). exists (m1 ++ m2), code, ok.
  rewrite H2, H1, <- !app_assoc. split; [done|]. by apply Forall_app.
Qed.

Lemma quiet_same s s' : log s' = log s -> quiet s s'.
Proof. intros H. exists []. by rewrite app_nil_r. Qed.

Lemma quiet_emit e s : is_exit_frame e = false -> quiet s (emit e s).
Proof. intros H. exists [e]. split; [done|]. by constructor. Qed.

Lemma quiet_notify o event s : quiet s (notify o event s).
Proof.
  unfold notify. destruct (send _ _ _ _) as [[r n'] req].
  exists [NotifierSend event req r]. split; [done|]. by constructor.
Qed.

Lemma quiet_send_to_client o msg_type body s :
  msg_type <> lit "exit" -> quiet s (send_to_client o msg_type body s).
Proof.
  intros Hne. unfold send_to_client.
  exists [SendAll msg_type body (sendall o (calls s))].
  split; [by destruct (sendall o (calls s))|].
  constructor; [|done]. simpl. by rewrite bool_decide_false.
Qed.

Lemma quiet_notify_all o events s :
  quiet s (fold_left (fun s' event => notify o event s') events s).
Proof.
  revert s. induction events as [|e events IH]; intros s; simpl.
  - apply quiet_refl.
  - eapply quiet_trans; [apply quiet_notify|apply IH].
Qed.

Lemma quiet_check_inactivity o loc s : quiet s (fst (check_inactivity o loc s)).
Proof.
  unfold check_inactivity. destruct (armed s) as [t|]; [|apply quiet_refl].
  destruct (inactivity_notified loc); [apply quiet_refl|]. simpl.
  destruct (Qlt_le_dec _ _); simpl; [|by apply quiet_same].
  eapply quiet_trans; [|apply quiet_send_to_client; discriminate].
  eapply quiet_trans; [|apply quiet_notify]. by apply quiet_same.
Qed.

Lemma finish_log s : log (finish s) = log s ++ [CloseMaster; CloseClient].
Proof. unfold finish. simpl. by rewrite <- app_assoc. Qed.

Lemma finish_running s : running (finish s) = false.
Proof. done. Qed.

Lemma quiet_finish s : quiet s (finish s).
Proof. exists [CloseMaster; CloseClient]. split; [apply finish_log|]. by repeat constructor. Qed.

(** The master branch: a read without bytes closes the session and sends
    nothing; otherwise the branch sends no [exit] frame. *)
Lemma on_master_eof o t loc s :
  os_read t = ReadError \/ (exists text, os_read t = ReadData [] text) ->
  on_master o t loc s = (Return, finish s, loc).
Proof. unfold on_master. by intros [-> | [text ->]]. Qed.

Lemma quiet_on_master o t loc s : quiet s (snd (fst (on_master o t loc s))).
Proof.
  unfold on_master.
  destruct (os_read t) as [|[|b data] text]; simpl; try apply quiet_finish.
  destruct (feed _ _ _ _) as [events d] eqn:Hf. simpl.
  eapply quiet_trans; [|apply quiet_notify_all].
  eapply quiet_trans; [|by apply quiet_same].
  eapply quiet_trans; [|apply quiet_send_to_client; discriminate].
  by apply quiet_same.
Qed.

Lemma quiet_resize ok rows cols s : quiet s (snd (resize ok rows cols s)).
Proof.
  unfold resize. destruct (master_fd s =? 0)%Z; [apply quiet_refl|].
  destruct (pack_H rows), (pack_H cols); simpl;
    try apply quiet_refl. by apply quiet_emit.
Qed.

Lemma quiet_control_frame t chunk msg s : quiet s (snd (control_frame t chunk msg s)).
Proof.
  unfold control_frame, write_master. destruct msg; try apply quiet_refl.
  destruct (is_str _ (lit "resize")).
  - pose proof (quiet_resize (ioctl_ok t) (default (JInt 24) (dict_get (lit "rows") items))
                  (default (JInt 80) (dict_get (lit "cols") items)) s) as H.
    by destruct (resize _ _ _ _) as [[e|] s'].
  - destruct (is_str _ (lit "input")); [|by apply quiet_emit].
    destruct (dict_get (lit "data") items) as [[| | | |x| |]|];
      try apply quiet_refl; [|by apply quiet_emit].
    destruct (utf8_encode x); [by apply quiet_emit|apply quiet_refl].
Qed.

Lemma quiet_on_client t s : quiet s (snd (on_client t s)).
Proof.
  unfold on_client, write_master.
  destruct (recv t) as [|[|b chunk] parsed]; simpl;
    [apply quiet_refl|by apply quiet_same|].
  destruct parsed; simpl;
    [apply quiet_refl|by apply quiet_emit|apply quiet_refl|apply quiet_control_frame].
Qed.

Lemma quiet_for_readable o t readable loc s :
  quiet s (snd (fst (for_readable o t readable loc s))).
Proof.
  revert loc s. induction readable as [|[|] rest IH]; intros loc s; simpl.
  - apply quiet_refl.
  - pose proof (quiet_on_master o t loc s) as H.
    destruct (on_master o t loc s) as [[[| |e] s'] loc']; simpl in *; [|done|done].
    eapply quiet_trans; [exact H|apply IH].
  - pose proof (quiet_on_client t s) as H.
    destruct (on_client t s) as [[| |e] s']; simpl in *; [|done|done].
    eapply quiet_trans; [exact H|apply IH].
Qed.

(** [_handle_exit]: a call of the notifier when the code is not 0, the
    [exit] frame, the two closes. *)
Lemma handle_exit_log o status s :
  exists mid ok,
    log (handle_exit o status s) =
      log s ++ mid ++ [SendAll (lit "exit") (Text (str_of_Z (exit_code status))) ok;
                       CloseMaster; CloseClient] /\
    ((exit_code status = 0%Z /\ mid = []) \/
     (exit_code status <> 0%Z /\
      exists stamp posted res,
        mid = [NotifierSend (exit_event stamp (exit_code status) (command_str s))
                 posted res])).
Proof.
  unfold handle_exit. destruct (exit_code status =? 0)%Z eqn:Hc.
  - exists [], (sendall o (calls s)). rewrite finish_log. split.
    + unfold send_to_client. destruct (sendall o (calls s)); simpl; by rewrite <- app_assoc.
    + left. split; [by apply Z.eqb_eq|done].
  - rewrite finish_log. unfold now, notify.
    destruct (send _ _ _ _) as [[res n'] posted] eqn:Hsend.
    unfold send_to_client.
    match goal with |- context [if ?b then _ else _] =>
      eexists [NotifierSend _ posted res], b; split; [destruct b|] end.
    + simpl. rewrite <- !app_assoc. reflexivity.
    + simpl. rewrite <- !app_assoc. reflexivity.
    + right. split; [by apply Z.eqb_neq|]. by eexists _, _, _.
Qed.

Lemma exits_handle_exit o status s : exits s (handle_exit o status s).
Proof.
  destruct (handle_exit_log o status s) as (mid & ok & Hlog & Hmid).
  exists mid, (exit_code status), ok. split; [done|].
  destruct Hmid as [[_ ->]|[_ (stamp & posted & res & ->)]]; by repeat constructor.
Qed.

Lemma check_child_log o t s :
  quiet s (snd (check_child o t s)) \/
  (fst (check_child o t s) = Return /\ exits s (snd (check_child o t s))).
Proof.
  unfold check_child. destruct (waitpid t); simpl.
  - left. apply quiet_refl.
  - right. split; [done|apply exits_handle_exit].
  - left. apply quiet_finish.
Qed.

Lemma pass_body_log o t readable loc s :
  quiet s (snd (fst (pass_body o t readable loc s))) \/
  (fst (fst (pass_body o t readable loc s)) = Return /\
   exits s (snd (fst (pass_body o t readable loc s)))).
Proof.
  unfold pass_body.
  pose proof (quiet_check_inactivity o loc s) as H1.
  destruct (check_inactivity o loc s) as [s1 loc1]. simpl in H1.
  pose proof (quiet_for_readable o t readable loc1 s1) as H2.
  destruct (for_readable o t readable loc1 s1) as [[[| |e] s2] loc2]; simpl in *;
    try (left; by eapply quiet_trans).
  pose proof (check_child_log o t s2) as H3.
  destruct (check_child o t s2) as [sig s3]. simpl in *.
  destruct H3 as [H3|[-> H3]].
  - left. eapply quiet_trans; [|exact H3]. by eapply quiet_trans.
  - right. split; [done|]. eapply quiet_exits; [|exact H3]. by eapply quiet_trans.
Qed.

Lemma select_timeout_log o loc s : log (snd (select_timeout o loc s)) = log s.
Proof. unfold select_timeout. by destruct (armed s). Qed.

Lemma select_timeout_running o loc s : running (snd (select_timeout o loc s)) = running s.
Proof. unfold select_timeout. by destruct (armed s). Qed.

Lemma while_running_log o turns loc s :
  quiet s (snd (while_running o turns loc s)) \/
  (fst (while_running o turns loc s) = Returned /\
   exits s (snd (while_running o turns loc s))).
Proof.
  revert loc s. induction turns as [|t turns IH]; intros loc s; simpl.
  - left. destruct (running s); apply quiet_refl.
  - destruct (running s); [|left; apply quiet_refl].
    pose proof (select_timeout_log o loc s) as H0.
    destruct (select_timeout o loc s) as [timeout s0]. simpl in H0.
    assert (Hsel : quiet s (emit (Select timeout) s0)).
    { eapply quiet_trans; [by apply quiet_same|by apply quiet_emit]. }
    destruct (select_ t) as [|m c]; [by left|].
    match goal with |- context [pass_body o t ?r loc ?x] =>
      pose proof (pass_body_log o t r loc x) as Hp;
      destruct (pass_body o t r loc x) as [[[| |e] s'] loc'] end; simpl in *.
    + destruct Hp as [Hp|[[=] _]].
      destruct (IH loc' s') as [Hq|[Hr Hx]].
      * left. eapply quiet_trans; [|exact Hq]. by eapply quiet_trans.
      * right. split; [done|]. eapply quiet_exits; [|exact Hx]. by eapply quiet_trans.
    + destruct Hp as [Hp|[_ Hp]].
      * left. by eapply quiet_trans.
      * right. split; [done|]. by eapply quiet_exits.
    + destruct Hp as [Hp|[[=] _]]. left. by eapply quiet_trans.
Qed.

(** C1 (amended).  A pass in which the PTY master is readable and the read
    gives no byte ends the loop with the teardown (running false, the PTY
    master closed, then the client socket) and with no [exit] frame; and
    whatever the session meets, it sends at most one [exit] frame, after
    which nothing is sent: the frame is followed in the log by the two
    closes only. *)
Theorem exit_frame_at_most_once_and_last o turns s :
  (forall t rest loc c,
     running s = true ->
     select_ t = Readable true c ->
     (os_read t = ReadError \/ exists text, os_read t = ReadData [] text) ->
     fst (while_running o (t :: rest) loc s) = Returned /\
     running (snd (while_running o (t :: rest) loc s)) = false /\
     exists mid,
       log (snd (while_running o (t :: rest) loc s)) =
         log s ++ mid ++ [CloseMaster; CloseClient] /\
       Forall (fun e => is_exit_frame e = false) mid) /\
  (exists added,
     log (snd (_loop o turns s)) = log s ++ added /\
     (Forall (fun e => is_exit_frame e = false) added \/
      (fst (_loop o turns s) = Returned /\
       exists before code ok,
         added = before ++ [SendAll (lit "exit") (Text (str_of_Z code)) ok;
                            CloseMaster; CloseClient] /\
         Forall (fun e => is_exit_frame e = false) before))).
Proof.
  split.
  - intros t rest loc c Hrun Hsel Hread. simpl. rewrite Hrun, Hsel.
    pose proof (select_timeout_log o loc s) as H0.
    destruct (select_timeout o loc s) as [timeout s0]. simpl in H0.
    unfold pass_body. simpl.
    match goal with |- context [check_inactivity o loc ?x] =>
      pose proof (quiet_check_inactivity o loc x) as H1;
      destruct (check_inactivity o loc x) as [s1 loc1] end.
    simpl in H1. rewrite (on_master_eof _ _ _ _ Hread). simpl.
    repeat split.
    destruct H1 as (mid & Hmid & Hq). exists (Select timeout :: mid).
    rewrite <- app_assoc, Hmid. simpl. rewrite H0, <- !app_assoc. simpl.
    split; [done|]. by constructor.
  - unfold _loop. simpl.
    match goal with |- context [while_running o turns ?l ?x] =>
      destruct (while_running_log o turns l x) as [(mid & Hm & Hq)|[Hr (mid & code & ok & Hm & Hq)]] end;
      simpl in Hm.
    + exists mid. split; [done|by left].
    + eexists. split; [exact Hm|]. right. split; [done|]. by exists mid, code, ok.
Qed.

Lemma exit_frame_at_most_once_and_last_witness :
  fst (while_running fair [eof_turn] fresh_locals sh_session) = Returned /\
  running (snd (while_running fair [eof_turn] fresh_locals sh_session)) = false /\
  exists mid,
    log (snd (while_running fair [eof_turn] fresh_locals sh_session)) =
      log sh_session ++ mid ++ [CloseMaster; CloseClient] /\
    Forall (fun e => is_exit_frame e = false) mid.
Proof.
  apply (proj1 (exit_frame_at_most_once_and_last fair [eof_turn] sh_session)
           eof_turn [] fresh_locals false).
  - reflexivity.
  - reflexivity.
  - right. exists []. reflexivity.
Defined.

(** C1 (counterexample).  The PTY master gives no byte: the loop returns,
    the session is torn down, and the client was sent no [exit] frame. *)
Lemma eof_sends_no_exit_frame :
  fst (_loop fair [eof_turn] sh_session) = Returned /\
  running (snd (_loop fair [eof_turn] sh_session)) = false /\
  log (snd (_loop fair [eof_turn] sh_session)) = [Select 1%Q; CloseMaster; CloseClient] /\
  List.filter is_exit_frame (log (snd (_loop fair [eof_turn] sh_session))) = [].
Proof. vm_compute. repeat split; reflexivity. Qed.

(** C2 (the code at the failing input).  The client closes its socket
    while the child is running: [recv] gives no byte, [running] goes from
    true to false, the loop stops at its test, and neither the PTY master
    nor the client socket has been closed. *)
Theorem client_close_skips_teardown o rest :
  running sh_session = true /\
  fst (_loop o (client_closed_turn :: rest) sh_session) = Stopped /\
  running (snd (_loop o (client_closed_turn :: rest) sh_session)) = false /\
  log (snd (_loop o (client_closed_turn :: rest) sh_session)) = [Select 1%Q] /\
  List.filter is_close (log (snd (_loop o (client_closed_turn :: rest) sh_session))) = [].
Proof. destruct rest; vm_compute; repeat split; reflexivity. Qed.

(** ** The exit code *)

Lemma exit_code_exited n :
  (0 <= n < 256)%Z -> exit_code (Z.shiftl n 8) = n.
Proof.
  intros Hn.
  assert (H : forallb (fun k => (exit_code (Z.shiftl (Z.of_nat k) 8) =? Z.of_nat k)%Z)
                (seq 0 256) = true) by (vm_compute; reflexivity).
  rewrite forallb_forall in H. specialize (H (Z.to_nat n)).
  rewrite Z2Nat.id in H by lia. apply Z.eqb_eq, H, in_seq. lia.
Qed.

Lemma exit_code_signaled sig :
  (1 <= sig < 127)%Z -> exit_code sig = (128 + sig)%Z.
Proof.
  intros Hn.
  assert (H : forallb (fun k => (exit_code (Z.of_nat k) =? 128 + Z.of_nat k)%Z)
                (seq 1 126) = true) by (vm_compute; reflexivity).
  rewrite forallb_forall in H. specialize (H (Z.to_nat sig)).
  rewrite Z2Nat.id in H by lia. apply Z.eqb_eq, H, in_seq. lia.
Qed.

(** A stopped child (low byte 0x7f) is neither exited nor signaled. *)
Lemma exit_code_other : exit_code 4991 = 1%Z.
Proof. reflexivity. Qed.

(** C5. For every wait status, the code is [WEXITSTATUS] when the child
    exited, 128 plus the signal when it was signaled and 1 otherwise;
    [_handle_exit] calls the notifier with an [exit_code] event when the
    code is not 0 and does not call it when the code is 0; then it sends
    the [exit] frame with the code in decimal, and then tears the session
    down. *)
Theorem handle_exit_reports_code o status s :
  exit_code status =
    (if WIFEXITED status then WEXITSTATUS status
     else if WIFSIGNALED status then 128 + WTERMSIG status
     else 1)%Z /\
  running (handle_exit o status s) = false /\
  exists mid ok,
    log (handle_exit o status s) =
      log s ++ mid ++ [SendAll (lit "exit") (Text (str_of_Z (exit_code status))) ok;
                       CloseMaster; CloseClient] /\
    match mid with
    | [] => exit_code status = 0%Z
    | [NotifierSend e _ _] =>
        exit_code status <> 0%Z /\
        event_type e = lit "exit_code" /\
        message e = lit "Exited with code " ++ str_of_Z (exit_code status) /\
        command e = command_str s
    | _ => False
    end.
Proof.
  split; [reflexivity|]. split; [reflexivity|].
  destruct (handle_exit_log o status s) as (mid & ok & Hlog & Hmid).
  exists mid, ok. split; [done|].
  destruct Hmid as [[Hc ->]|[Hc (stamp & posted & res & ->)]]; done.
Qed.

(** ** Chunks from the client *)

Lemma is_str_inj v a b : is_str v a = true -> is_str v b = true -> a = b.
Proof.
  destruct v as [[| | | |x| |]|]; simpl; try done.
  intros Ha Hb. apply bool_decide_eq_true in Ha, Hb. congruence.
Qed.

Lemma not_resize_and_input v :
  is_str v (lit "input") = true -> is_str v (lit "resize") = false.
Proof.
  intros Hi. destruct (is_str v (lit "resize")) eqn:Hr; [|done].
  pose proof (is_str_inj _ _ _ Hi Hr) as H. vm_compute in H. discriminate H.
Qed.

Lemma resize_log ok rows cols s :
  List.filter is_write (log (snd (resize ok rows cols s))) = List.filter is_write (log s).
Proof.
  unfold resize. destruct (master_fd s =? 0)%Z; [done|].
  destruct (pack_H rows), (pack_H cols); simpl; try done.
  rewrite List.filter_app. simpl. by rewrite app_nil_r.
Qed.

(** [struct.pack] refuses what is not an integer of 16 bits. *)
Lemma resize_raises ok rows cols s :
  master_fd s <> 0%Z ->
  pack_H rows = None \/ pack_H cols = None ->
  resize ok rows cols s = (Some StructError, s).
Proof.
  intros Hfd Hbad. unfold resize.
  destruct (master_fd s =? 0)%Z eqn:H0; [by apply Z.eqb_eq in H0|].
  destruct Hbad as [-> | ->]; [done|]. by destruct (pack_H rows).
Qed.

(** C4 (amended).  A chunk of at least one byte read from the client:
    - when [json.loads] refuses it with [JSONDecodeError], it is written
      as it is to the PTY master;
    - when it is a JSON object with [type] [resize], it goes to [_resize]
      and nothing is written to the PTY master;
    - when it is a JSON object with [type] [input] and a string [data]
      that can be encoded in UTF-8, the encoding of [data] is written to
      the PTY master;
    - when it is a JSON object with [type] [input] and no [data], or a
      JSON object with another [type] or none, it is written as it is to
      the PTY master. *)
Theorem client_chunk_dispatch t s b chunk parsed :
  recv t = RecvData (b :: chunk) parsed ->
  (parsed = LoadsFailed -> on_client t s = (Next, write_master t (b :: chunk) s)) /\
  (forall items,
     parsed = Loaded (JDict items) ->
     (is_str (dict_get (lit "type") items) (lit "resize") = true ->
        on_client t s =
          (let r := resize (ioctl_ok t)
                      (default (JInt 24) (dict_get (lit "rows") items))
                      (default (JInt 80) (dict_get (lit "cols") items)) s in
           (match fst r with Some e => Raise e | None => Next end, snd r)) /\
        List.filter is_write (log (snd (on_client t s))) = List.filter is_write (log s)) /\
     (is_str (dict_get (lit "type") items) (lit "input") = true ->
        forall x bs,
          dict_get (lit "data") items = Some (JStr x) ->
          utf8_encode x = Some bs ->
          on_client t s = (Next, write_master t bs s)) /\
     (is_str (dict_get (lit "type") items) (lit "input") = true ->
        dict_get (lit "data") items = None ->
        on_client t s = (Next, write_master t (b :: chunk) s)) /\
     (is_str (dict_get (lit "type") items) (lit "resize") = false ->
        is_str (dict_get (lit "type") items) (lit "input") = false ->
        on_client t s = (Next, write_master t (b :: chunk) s))).
Proof.
  intros Hrecv. unfold on_client. rewrite Hrecv. split.
  - by intros ->.
  - intros items ->. unfold control_frame. repeat split.
    + rewrite H. by destruct (resize _ _ _ _) as [[e|] s'].
    + rewrite H.
      pose proof (resize_log (ioctl_ok t) (default (JInt 24) (dict_get (lit "rows") items))
                    (default (JInt 80) (dict_get (lit "cols") items)) s) as Hl.
      by destruct (resize _ _ _ _) as [[e|] s'].
    + intros Hi x bs Hd He. rewrite (not_resize_and_input _ Hi), Hi, Hd, He. done.
    + intros Hi Hd. rewrite (not_resize_and_input _ Hi), Hi, Hd. done.
    + intros Hr Hi. by rewrite Hr, Hi.
Qed.

Lemma client_chunk_dispatch_witness :
  on_client (client_turn input_without_data (Loaded input_without_data_msg)) sh_session =
    (Next, write_master (client_turn input_without_data (Loaded input_without_data_msg))
             input_without_data sh_session) /\
  on_client (client_turn typed_ls LoadsFailed) sh_session =
    (Next, write_master (client_turn typed_ls LoadsFailed) typed_ls sh_session) /\
  on_client (client_turn input_ls (Loaded (JDict input_ls_items))) sh_session =
    (Next, write_master (client_turn input_ls (Loaded (JDict input_ls_items)))
             typed_ls sh_session).
Proof.
  split; [|split].
  - destruct (proj2 (client_chunk_dispatch
                       (client_turn input_without_data (Loaded input_without_data_msg))
                       sh_session "{"%byte (tl input_without_data)
                       (Loaded input_without_data_msg) eq_refl)
                [(lit "type", JStr (lit "input"))] eq_refl) as (_ & _ & H & _).
    apply H; reflexivity.
  - apply (proj1 (client_chunk_dispatch
                    (client_turn typed_ls LoadsFailed)
                    sh_session "l"%byte (tl typed_ls)
                    LoadsFailed eq_refl)). reflexivity.
  - destruct (proj2 (client_chunk_dispatch
                       (client_turn input_ls (Loaded (JDict input_ls_items)))
                       sh_session "{"%byte (tl input_ls)
                       (Loaded (JDict input_ls_items)) eq_refl)
                input_ls_items eq_refl) as (_ & H & _).
    apply (H eq_refl (lit "ls" ++ [NL]) typed_ls); reflexivity.
Defined.

(** C4 (counterexample).  The chunk [{"type":"input"}] parses as a JSON
    object with [type] equal to [input], and it is written as it is to the
    PTY master. *)
Lemma input_without_data_forwarded_raw :
  spec_control_frame (Loaded input_without_data_msg) = true /\
  on_client (client_turn input_without_data (Loaded input_without_data_msg)) sh_session =
    (Next, emit (Write input_without_data true) sh_session) /\
  log (snd (on_client (client_turn input_without_data (Loaded input_without_data_msg))
              sh_session)) = [Write input_without_data true].
Proof. vm_compute. repeat split; reflexivity. Qed.

(** C10.  There is a chunk that parses as a JSON object with [type]
    [resize] and a [rows] that is a string, for which the exception of
    [struct.pack] leaves [_loop]: [running] is still true, and neither the
    PTY master nor the client socket has been closed. *)
Theorem resize_struct_error_leaves_loop o rest :
  exists chunk items,
    is_str (dict_get (lit "type") items) (lit "resize") = true /\
    dict_get (lit "rows") items = Some (JStr (lit "40")) /\
    fst (_loop o (client_turn chunk (Loaded (JDict items)) :: rest) sh_session)
      = Uncaught StructError /\
    running (snd (_loop o (client_turn chunk (Loaded (JDict items)) :: rest) sh_session))
      = true /\
    List.filter is_close
      (log (snd (_loop o (client_turn chunk (Loaded (JDict items)) :: rest) sh_session)))
      = [].
Proof.
  exists resize_rows_string,
    [(lit "type", JStr (lit "resize")); (lit "rows", JStr (lit "40"))].
  vm_compute. repeat split; reflexivity.
Qed.

(** A float or an integer out of range is refused as well. *)
Lemma pack_H_refuses :
  pack_H (JFloat (1 # 2)) = None /\ pack_H (JInt 70000) = None /\
  pack_H (JInt (-1)) = None /\ pack_H JNull = None /\ pack_H (JStr (lit "40")) = None.
Proof. repeat split; reflexivity. Qed.

(** * PatternDetector: bounds and exactness *)

Lemma split_lines_fuel f f' s :
  length s <= f -> length s <= f' -> split_lines f s = split_lines f' s.
Proof.
  revert f' s. induction f as [|f IH]; intros f' s Hf Hf'.
  - destruct s; [|simpl in Hf; lia]. by destruct f'.
  - destruct f' as [|f'].
    + destruct s; [done|simpl in Hf'; lia].
    + simpl. destruct (split_nl s) as [[line rest]|] eqn:Hs; [|done].
      apply split_nl_length in Hs. f_equal. apply IH; lia.
Qed.

Lemma completed_lines_split s line rest :
  split_nl s = Some (line, rest) -> completed_lines s = line :: completed_lines rest.
Proof.
  intros Hs. unfold completed_lines. pose proof (split_nl_length _ _ _ Hs) as Hl.
  destruct (length s) as [|n] eqn:Hn; [lia|]. simpl. rewrite Hs. f_equal.
  apply split_lines_fuel; lia.
Qed.

Lemma completed_lines_none s : split_nl s = None -> completed_lines s = [].
Proof.
  intros Hs. unfold completed_lines. destruct (length s); simpl; [done|]. by rewrite Hs.
Qed.

(** The loop of [feed] in terms of the lines completed. *)
Lemma feed_loop_step f clock cmd d events line rest :
  split_nl (partial d) = Some (line, rest) ->
  length (partial d) <= f ->
  feed_loop f clock cmd d events =
    feed_loop (length rest) clock cmd
      (fst (feed_line clock cmd line rest d events))
      (snd (feed_line clock cmd line rest d events)).
Proof.
  intros Hs Hf. pose proof (split_nl_length _ _ _ Hs) as Hl.
  destruct f as [|f]; [lia|]. simpl. rewrite Hs.
  destruct (feed_line clock cmd line rest d events) as [d' ev'] eqn:Hfl. simpl.
  apply feed_loop_fuel.
  - replace d' with (fst (feed_line clock cmd line rest d events)) by (by rewrite Hfl).
    rewrite feed_line_eq. simpl. lia.
  - replace d' with (fst (feed_line clock cmd line rest d events)) by (by rewrite Hfl).
    rewrite feed_line_eq. simpl. lia.
Qed.

(** An induction principle for the loop: a property of the detector and the
    events that holds at the start and is kept by every pass holds at the
    end. *)
Lemma feed_loop_invariant (P : PatternDetector -> list Event -> Prop) f clock cmd d events :
  P d events ->
  (forall d0 ev0 line rest,
     P d0 ev0 ->
     P (fst (feed_line clock cmd line rest d0 ev0))
       (snd (feed_line clock cmd line rest d0 ev0))) ->
  P (fst (feed_loop f clock cmd d events)) (snd (feed_loop f clock cmd d events)).
Proof.
  intros H0 Hstep. revert d events H0.
  induction f as [|f IH]; intros d events H0; simpl; [done|].
  destruct (split_nl (partial d)) as [[line rest]|]; [|done].
  specialize (Hstep d events line rest H0).
  destruct (feed_line clock cmd line rest d events) as [d' ev']. by apply IH.
Qed.

Lemma feed_invariant (P : PatternDetector -> list Event -> Prop) clock data cmd d :
  P (with_partial (partial d ++ data) d) [] ->
  (forall d0 ev0 line rest,
     P d0 ev0 ->
     P (fst (feed_line clock cmd line rest d0 ev0))
       (snd (feed_line clock cmd line rest d0 ev0))) ->
  P (snd (feed clock data cmd d)) (fst (feed clock data cmd d)).
Proof.
  intros H0 Hstep. rewrite feed_eq. simpl. by apply feed_loop_invariant.
Qed.

Lemma truncate_length lns : length lns <= 501 -> length (truncate lns) <= 500.
Proof.
  intros H. unfold truncate. destruct (500 <? length lns) eqn:Hc.
  - pose proof (last_n_length 250 lns). lia.
  - apply Nat.ltb_ge in Hc. done.
Qed.

Lemma feed_line_bounded clock cmd line rest d events :
  bounded d -> bounded (fst (feed_line clock cmd line rest d events)).
Proof.
  intros [Hl Hs]. rewrite feed_line_eq. split; simpl.
  - apply truncate_length. rewrite length_app. simpl. lia.
  - intros i. destruct (line_match line d); [|by apply Hs].
    rewrite elem_of_union, elem_of_singleton. intros [->|Hi]; [done|by apply Hs].
Qed.

Lemma feed_bounded clock data cmd d :
  bounded d -> bounded (snd (feed clock data cmd d)).
Proof.
  intros Hb.
  apply (feed_invariant (fun d' _ => bounded d') clock data cmd d); [done|].
  intros d0 ev0 line rest. apply feed_line_bounded.
Qed.

Lemma feed_each_bounded clocks chunks cmd d :
  bounded d -> bounded (snd (feed_each clocks chunks cmd d)).
Proof.
  revert clocks d. induction chunks as [|c cs IH]; intros clocks d Hb; simpl; [done|].
  pose proof (feed_bounded (clocks 0) c cmd d Hb) as Hb'.
  destruct (feed (clocks 0) c cmd d) as [ev d']. simpl in Hb'.
  specialize (IH (fun i => clocks (S i)) d' Hb').
  by destruct (feed_each _ cs cmd d') as [evs d''].
Qed.

(** X1. However much text a detector is fed, it keeps at most 500 lines,
    every index in its reported set is at most 500, and so the set never
    holds more than 501 indices. *)
Theorem detector_memory_bounded ps clocks history cmd :
  length (lines (reached ps clocks history cmd)) <= 500 /\
  seen (reached ps clocks history cmd) ⊆ set_seq 0 501 /\
  size (seen (reached ps clocks history cmd)) <= 501.
Proof.
  assert (Hb : bounded (reached ps clocks history cmd)).
  { apply feed_each_bounded. split; simpl; [lia|]. intros i Hi. set_solver. }
  destruct Hb as [Hl Hs]. split; [done|].
  assert (Hsub : seen (reached ps clocks history cmd) ⊆ set_seq 0 501).
  { intros i Hi. apply elem_of_set_seq. specialize (Hs i Hi). lia. }
  split; [done|].
  apply subseteq_size in Hsub. by rewrite size_set_seq in Hsub.
Qed.

(** X2. In a detector state reached by [feed] calls, a chunk without a
    newline gives no event and is kept whole at the end of the partial
    line; lines and reported set are untouched. *)
Theorem feed_without_newline ps clocks history cmd0 clock data cmd :
  split_nl data = None ->
  feed clock data cmd (reached ps clocks history cmd0) =
    ([], with_partial (partial (reached ps clocks history cmd0) ++ data)
           (reached ps clocks history cmd0)).
Proof.
  intros Hdata.
  assert (Hd : split_nl (partial (reached ps clocks history cmd0)) = None)
    by (apply feed_each_partial; reflexivity).
  rewrite feed_eq. rewrite feed_loop_none; [done|].
  simpl. rewrite split_nl_none_app by done. by rewrite Hdata.
Qed.

Lemma feed_without_newline_witness :
  feed (fun _ => 0%Q) (lit "no newline yet") (lit "make")
       (reached DEFAULT_PATTERNS (fun _ _ => 0%Q) [lit "error: half a li"] (lit "make")) =
    ([], with_partial
           (partial (reached DEFAULT_PATTERNS (fun _ _ => 0%Q) [lit "error: half a li"]
                       (lit "make")) ++ lit "no newline yet")
           (reached DEFAULT_PATTERNS (fun _ _ => 0%Q) [lit "error: half a li"] (lit "make"))).
Proof.
  apply (feed_without_newline DEFAULT_PATTERNS (fun _ _ => 0%Q) [lit "error: half a li"]
           (lit "make") (fun _ => 0%Q) (lit "no newline yet") (lit "make")).
  reflexivity.
Defined.

Lemma line_match_found line d p :
  line_match line d = Some p -> In p (patterns d) /\ search p line = true.
Proof.
  unfold line_match. destruct (bool_decide _); [done|]. apply List.find_some.
Qed.

(** X3. Every event [feed] returns is a [pattern_match] event of priority
    [high] with the tag [warning] and the command given, and its message
    names a pattern of the detector. *)
Theorem feed_events_shape clock data cmd d :
  Forall (fun e =>
    event_type e = lit "pattern_match" /\
    priority e = lit "high" /\
    tags e = [lit "warning"] /\
    command e = cmd /\
    exists p, In p (patterns d) /\ message e = lit "Matched: " ++ pattern p)
    (fst (feed clock data cmd d)).
Proof.
  set (Q := fun e => event_type e = lit "pattern_match" /\ priority e = lit "high" /\
                     tags e = [lit "warning"] /\ command e = cmd /\
                     exists p, In p (patterns d) /\ message e = lit "Matched: " ++ pattern p).
  apply (feed_invariant (fun d' evs => patterns d' = patterns d /\ Forall Q evs)
           clock data cmd d).
  - split; [done|constructor].
  - intros d0 ev0 line rest [Hp Hev]. rewrite feed_line_eq. simpl. split; [done|].
    apply Forall_app. split; [done|].
    destruct (line_match line d0) as [p|] eqn:Hm; [|constructor].
    apply line_match_found in Hm as [Hin _]. constructor; [|constructor].
    unfold Q. simpl. repeat split. exists p. by rewrite <- Hp.
Qed.

Lemma feed_loop_count f clock cmd d events :
  length (snd (feed_loop f clock cmd d events)) <=
    length events + length (split_lines f (partial d)).
Proof.
  revert d events. induction f as [|f IH]; intros d events; simpl; [lia|].
  destruct (split_nl (partial d)) as [[line rest]|]; simpl; [|lia].
  rewrite feed_line_eq.
  match goal with |- context [feed_loop f clock cmd ?d' ?e'] =>
    specialize (IH d' e') end.
  simpl in IH. rewrite length_app in IH.
  destruct (line_match line d); simpl in IH; lia.
Qed.

(** X4. A call of [feed] returns at most one event per line it completes. *)
Theorem feed_events_at_most_lines clock data cmd d :
  length (fst (feed clock data cmd d)) <= length (completed_lines (partial d ++ data)).
Proof.
  rewrite feed_eq. simpl.
  pose proof (feed_loop_count (length (partial d ++ data)) clock cmd
                (with_partial (partial d ++ data) d) []) as H.
  simpl in H. exact H.
Qed.

Lemma feed_loop_no_lines f clock cmd d events :
  split_lines f (partial d) = [] -> feed_loop f clock cmd d events = (d, events).
Proof.
  destruct f as [|f]; simpl; [done|].
  by destruct (split_nl (partial d)) as [[line rest]|].
Qed.

(** While fewer than 501 lines have been completed and the reported set
    holds indices of the history only, the loop reports every line that
    matches. *)
Lemma feed_loop_exact f clock cmd d events :
  (forall i, i ∈ seen d -> i < length (lines d)) ->
  length (lines d) + length (split_lines f (partial d)) <= 501 ->
  List.map event_view (snd (feed_loop f clock cmd d events)) =
    List.map event_view events ++
    expected_views (patterns d) cmd (lines d) (split_lines f (partial d)).
Proof.
  revert d events. induction f as [|f IH]; intros d events Hseen Hlen; simpl.
  - by rewrite app_nil_r.
  - simpl in Hlen.
    destruct (split_nl (partial d)) as [[line rest]|] eqn:Hs; simpl in *;
      [|by rewrite app_nil_r].
    rewrite feed_line_eq.
    assert (Hm : line_match line d = List.find (fun p => search p line) (patterns d)).
    { unfold line_match. rewrite bool_decide_false; [done|].
      intros Hin. specialize (Hseen _ Hin). lia. }
    rewrite Hm.
    destruct (decide (length (lines d) < 500)) as [Hlt|Hge].
    + assert (Ht : truncate (lines d ++ [line]) = lines d ++ [line]).
      { unfold truncate. rewrite length_app. simpl.
        destruct (500 <? length (lines d) + 1) eqn:Hc; [|done].
        apply Nat.ltb_lt in Hc. lia. }
      rewrite Ht.
      match goal with |- context [feed_loop f clock cmd ?d' ?e'] =>
        rewrite (IH d' e') end; simpl.
      * rewrite List.map_app, <- app_assoc. f_equal.
        by destruct (List.find _ _).
      * intros i. rewrite length_app. simpl.
        destruct (List.find _ _).
        -- rewrite elem_of_union, elem_of_singleton. intros [->|Hi]; [lia|].
           specialize (Hseen _ Hi). lia.
        -- intros Hi. specialize (Hseen _ Hi). lia.
      * rewrite length_app. simpl. lia.
    + assert (Hnil : split_lines f rest = []).
      { destruct (split_lines f rest); [done|simpl in Hlen; lia]. }
      rewrite feed_loop_no_lines by (simpl; done). simpl.
      rewrite Hnil, List.map_app. simpl. f_equal.
      destruct (List.find _ _); by rewrite ?app_nil_r.
Qed.

Lemma feed_fresh_exact ps clock text cmd :
  length (completed_lines text) <= 501 ->
  List.map event_view (fst (feed clock text cmd (PatternDetector_init ps))) =
    expected_views ps cmd [] (completed_lines text).
Proof.
  intros Hlen. rewrite feed_eq. simpl.
  rewrite feed_loop_exact; simpl; [done| |done].
  intros i Hi. set_solver.
Qed.

(** X5. Until 501 lines have been completed, a new detector reports every
    line that a pattern matches, once, in order, for the first pattern
    that matches, with the line and up to two lines before it as context;
    how the text is cut into chunks makes no difference. *)
Theorem fresh_detector_reports_every_match ps clocks chunks cmd :
  length (completed_lines (concat chunks)) <= 501 ->
  List.map event_view (fst (feed_each clocks chunks cmd (PatternDetector_init ps))) =
    expected_views ps cmd [] (completed_lines (concat chunks)).
Proof.
  intros Hlen.
  destruct (feed_each_concat clocks (fun _ => 0%Q) chunks cmd (PatternDetector_init ps))
    as [_ Hv]; [done|].
  rewrite Hv. by apply feed_fresh_exact.
Qed.

Lemma fresh_detector_reports_every_match_witness :
  List.map event_view
    (fst (feed_each (fun _ _ => 0%Q)
            [lit "ok" ++ [NL] ++ lit "an err"; lit "or here" ++ [NL] ++ lit "tail"]
            (lit "make") (PatternDetector_init DEFAULT_PATTERNS))) =
    expected_views DEFAULT_PATTERNS (lit "make") []
      (completed_lines
         (concat [lit "ok" ++ [NL] ++ lit "an err"; lit "or here" ++ [NL] ++ lit "tail"])).
Proof.
  apply (fresh_detector_reports_every_match DEFAULT_PATTERNS (fun _ _ => 0%Q)
           [lit "ok" ++ [NL] ++ lit "an err"; lit "or here" ++ [NL] ++ lit "tail"]
           (lit "make")).
  vm_compute. lia.
Defined.

Lemma expected_views_length ps cmd lns new :
  length (expected_views ps cmd lns new) =
    length (List.filter (fun line => existsb (fun p => search p line) ps) new).
Proof.
  revert lns. induction new as [|line rest IH]; intros lns; simpl; [done|].
  rewrite length_app, IH.
  destruct (List.find (fun p => search p line) ps) as [p|] eqn:Hf.
  - apply List.find_some in Hf as [Hin Hs].
    assert (He : existsb (fun p => search p line) ps = true)
      by (apply existsb_exists; eauto).
    by rewrite He.
  - assert (He : existsb (fun p => search p line) ps = false).
    { apply not_true_is_false. intros He. apply existsb_exists in He as (p & Hin & Hs).
      by rewrite (List.find_none _ _ Hf p Hin) in Hs. }
    by rewrite He.
Qed.

(** X6. Until 501 lines have been completed, the number of events of a new
    detector is the number of completed lines that some pattern matches. *)
Theorem fresh_detector_counts_matches ps clock text cmd :
  length (completed_lines text) <= 501 ->
  length (fst (feed clock text cmd (PatternDetector_init ps))) =
    length (List.filter (fun line => existsb (fun p => search p line) ps)
              (completed_lines text)).
Proof.
  intros Hlen. rewrite <- (expected_views_length ps cmd []).
  rewrite <- (feed_fresh_exact ps clock text cmd Hlen). by rewrite length_map.
Qed.

Lemma fresh_detector_counts_matches_witness :
  length (fst (feed (fun _ => 0%Q)
                 (lit "error" ++ [NL] ++ lit "fine" ++ [NL] ++ lit "it failed" ++ [NL])
                 (lit "make") (PatternDetector_init DEFAULT_PATTERNS))) =
    length (List.filter (fun line => existsb (fun p => search p line) DEFAULT_PATTERNS)
              (completed_lines
                 (lit "error" ++ [NL] ++ lit "fine" ++ [NL] ++ lit "it failed" ++ [NL]))).
Proof.
  apply (fresh_detector_counts_matches DEFAULT_PATTERNS (fun _ => 0%Q)
           (lit "error" ++ [NL] ++ lit "fine" ++ [NL] ++ lit "it failed" ++ [NL]) (lit "make")).
  vm_compute. lia.
Defined.

(** * Notifier: what [send] returns and what it keeps *)

(** X7. [send] returns true exactly when the call is not rate limited, the
    body can be encoded, the topic URL has a type so that the request
    object can be built, and [urlopen] answers with status 200; in every
    other case (rate limit, encoding error, a topic that is no URL, a
    request that cannot be built, a network error, another status) it
    returns false. *)
Theorem send_true_iff now http event n :
  fst (fst (send now http event n)) = true <->
  rate_limited now (notify_key event) n = false /\
  (exists body, utf8_encode (notify_body event) = Some body) /\
  url_has_type (topic_url n) = true /\
  http = HttpStatus 200.
Proof.
  unfold send, send_store. destruct (rate_limited _ _ _); simpl.
  - split; [done|]. by intros [? _].
  - destruct (utf8_encode (notify_body event)) as [body|]; simpl.
    + destruct (url_has_type (topic_url n)); simpl.
      * destruct http as [st| |]; simpl.
        -- split.
           ++ intros Hst. apply Z.eqb_eq in Hst. subst st. eauto.
           ++ intros (_ & _ & _ & [= ->]). done.
        -- split; [done|]. by intros (_ & _ & _ & ?).
        -- split; [done|]. by intros (_ & _ & _ & ?).
      * split; [done|]. by intros (_ & _ & ? & _).
    + split; [done|]. by intros (_ & [body [=]] & _).
Qed.

Lemma send_true_iff_witness :
  fst (fst (send 0%Q (HttpStatus 200) boom_event (Notifier_init NTFY_URL))) = true.
Proof.
  apply (proj2 (send_true_iff 0%Q (HttpStatus 200) boom_event (Notifier_init NTFY_URL))).
  split; [reflexivity|]. split; [|split; reflexivity]. eexists. vm_compute. reflexivity.
Defined.

(** A topic that is no URL: the request object cannot be built, and [send]
    returns false without a request, whatever the endpoint would answer. *)
Example send_to_bare_word :
  send 0%Q (HttpStatus 200) boom_event (Notifier_init (lit "u")) =
    (false, snd (fst (send 0%Q (HttpStatus 200) boom_event (Notifier_init (lit "u")))), None).
Proof. vm_compute. reflexivity. Qed.

(** X8. A call of [send] touches the stored time of its own key only: the
    times of all other keys, the topic and the rate limit are as before. *)
Theorem send_keeps_other_keys now http event n key :
  key <> notify_key event ->
  last_notify (snd (fst (send now http event n))) !! key = last_notify n !! key /\
  topic_url (snd (fst (send now http event n))) = topic_url n /\
  rate_limit (snd (fst (send now http event n))) = rate_limit n.
Proof.
  intros Hne. rewrite send_state. destruct (rate_limited _ _ _); simpl; [done|].
  by rewrite lookup_insert_ne.
Qed.

Lemma send_keeps_other_keys_witness :
  last_notify (snd (fst (send 3%Q HttpError boom_event (Notifier_init NTFY_URL))))
    !! lit "exit_code:sh -c x" = last_notify (Notifier_init NTFY_URL) !! lit "exit_code:sh -c x" /\
  topic_url (snd (fst (send 3%Q HttpError boom_event (Notifier_init NTFY_URL)))) = NTFY_URL /\
  rate_limit (snd (fst (send 3%Q HttpError boom_event (Notifier_init NTFY_URL)))) = 10%Q.
Proof.
  apply (send_keeps_other_keys 3%Q HttpError boom_event (Notifier_init NTFY_URL)
           (lit "exit_code:sh -c x")).
  vm_compute. discriminate.
Defined.

(** X9. An attempt counts even when it fails: after a call that was not
    rate limited, whatever became of its request, a call for the same key
    less than [rate_limit] later returns false, sends nothing and changes
    nothing. *)
Theorem failed_attempt_still_limits now http event n now' http' event' :
  rate_limited now (notify_key event) n = false ->
  notify_key event' = notify_key event ->
  (now' - now < rate_limit n)%Q ->
  send now' http' event' (snd (fst (send now http event n))) =
    (false, snd (fst (send now http event n)), None).
Proof.
  intros Hlim Hkey Hlt.
  destruct (send_passed now http event n Hlim) as (Hlast & Hrate & _).
  apply (send_limited now' http' event' _ now).
  - by rewrite Hkey.
  - by rewrite Hrate.
Qed.

Lemma failed_attempt_still_limits_witness :
  send 9%Q (HttpStatus 200) boom_event
       (snd (fst (send 0%Q HttpError boom_event (Notifier_init NTFY_URL)))) =
    (false, snd (fst (send 0%Q HttpError boom_event (Notifier_init NTFY_URL))), None).
Proof.
  apply (failed_attempt_still_limits 0%Q HttpError boom_event (Notifier_init NTFY_URL)
           9%Q (HttpStatus 200) boom_event); reflexivity.
Defined.

(** * Session: more on the event loop *)

(** X10. The timeout given to [select] is never below 100 ms and never
    above 1 s, whatever the clock and the inactivity timeout. *)
Theorem select_timeout_bounds o loc s :
  (1 # 10 <= fst (select_timeout o loc s))%Q /\ (fst (select_timeout o loc s) <= 1)%Q.
Proof.
  unfold select_timeout. destruct (armed s) as [t|]; simpl.
  - split; [apply Q.le_max_l|].
    apply Q.max_lub; [done|apply Q.le_min_l].
  - split; done.
Qed.

(** ** The exit code, by the bits of the status *)

Lemma land_127_range status : (0 <= Z.land status 127 < 128)%Z.
Proof.
  change 127%Z with (Z.ones 7). rewrite Z.land_ones by lia.
  apply Z.mod_pos_bound. lia.
Qed.

Lemma land_255_range x : (0 <= Z.land x 255 < 256)%Z.
Proof.
  change 255%Z with (Z.ones 8). rewrite Z.land_ones by lia.
  apply Z.mod_pos_bound. lia.
Qed.

(** X11. The exit code is decided by the low seven bits of the wait
    status: when they are 0 it is the next eight bits (the status the child
    exited with), when they are 127 it is 1, and otherwise it is 128 plus
    these bits (the signal), with or without the core-dump flag; it is
    always between 0 and 255. *)
Theorem exit_code_by_low_bits status :
  exit_code status =
    (if Z.land status 127 =? 0 then Z.land (Z.shiftr status 8) 255
     else if Z.land status 127 =? 127 then 1
     else 128 + Z.land status 127)%Z /\
  (0 <= exit_code status <= 255)%Z.
Proof.
  pose proof (land_127_range status) as Ht.
  pose proof (land_255_range (Z.shiftr status 8)) as Hh.
  assert (Hcode : exit_code status =
    (if Z.land status 127 =? 0 then Z.land (Z.shiftr status 8) 255
     else if Z.land status 127 =? 127 then 1
     else 128 + Z.land status 127)%Z).
  { unfold exit_code, WIFEXITED, WEXITSTATUS, WIFSIGNALED, WTERMSIG.
    destruct (Z.land status 127 =? 0)%Z eqn:H0.
    - rewrite Z.shiftr_land. reflexivity.
    - apply Z.eqb_neq in H0.
      destruct (Z.land status 127 =? 127)%Z eqn:H127.
      + apply Z.eqb_eq in H127. rewrite H127. reflexivity.
      + apply Z.eqb_neq in H127.
        assert (Hv : (128 <=? Z.land status 127 + 1)%Z = false) by (apply Z.leb_gt; lia).
        rewrite Hv. rewrite Z.shiftr_div_pow2 by lia.
        assert (Hpos : (0 <? (Z.land status 127 + 1) / 2 ^ 1)%Z = true).
        { apply Z.ltb_lt. apply Z.div_str_pos. lia. }
        by rewrite Hpos. }
  split; [exact Hcode|]. rewrite Hcode.
  destruct (Z.land status 127 =? 0)%Z; [lia|].
  destruct (Z.land status 127 =? 127)%Z eqn:H127; [lia|].
  apply Z.eqb_neq in H127. lia.
Qed.

(** ** What the steps of a pass add to the log, for any property of the
    entries *)

Section Growth.
Variable P : effect -> Prop.

Lemma grows_refl s : grows P s s.
Proof. exists []. by rewrite app_nil_r. Qed.

Lemma grows_trans s1 s2 s3 : grows P s1 s2 -> grows P s2 s3 -> grows P s1 s3.
Proof.
  intros (m1 & H1 & F1) (m2 & H2 & F2). exists (m1 ++ m2).
  rewrite H2, H1, app_assoc. split; [done|]. by apply Forall_app.
Qed.

Lemma grows_same s s' : log s' = log s -> grows P s s'.
Proof. intros H. exists []. by rewrite app_nil_r. Qed.

Lemma grows_emit e s : P e -> grows P s (emit e s).
Proof. intros H. exists [e]. split; [done|]. by constructor. Qed.

Lemma grows_send_to_client o msg_type body s :
  (forall ok, P (SendAll msg_type body ok)) ->
  grows P s (send_to_client o msg_type body s).
Proof.
  intros HP. unfold send_to_client.
  exists [SendAll msg_type body (sendall o (calls s))].
  split; [by destruct (sendall o (calls s))|]. by constructor.
Qed.

Hypothesis P_notify : forall e req res, P (NotifierSend e req res).

Lemma grows_notify o event s : grows P s (notify o event s).
Proof.
  unfold notify. destruct (send _ _ _ _) as [[r n'] req].
  exists [NotifierSend event req r]. split; [done|]. by constructor.
Qed.

Lemma grows_notify_all o events s :
  grows P s (fold_left (fun s' event => notify o event s') events s).
Proof.
  revert s. induction events as [|e events IH]; intros s; simpl.
  - apply grows_refl.
  - eapply grows_trans; [apply grows_notify|apply IH].
Qed.

Lemma grows_check_inactivity o loc s :
  (forall body ok, P (SendAll (lit "event") body ok)) ->
  grows P s (fst (check_inactivity o loc s)).
Proof.
  intros HP. unfold check_inactivity. destruct (armed s) as [t|]; [|apply grows_refl].
  destruct (inactivity_notified loc); [apply grows_refl|]. simpl.
  destruct (Qlt_le_dec _ _); simpl; [|by apply grows_same].
  eapply grows_trans; [|apply grows_send_to_client; intros; apply HP].
  eapply grows_trans; [|apply grows_notify]. by apply grows_same.
Qed.

Lemma grows_on_master_data o t loc s b data text :
  (forall body ok, P (SendAll (lit "output") body ok)) ->
  os_read t = ReadData (b :: data) text ->
  fst (fst (on_master o t loc s)) = Next /\
  grows P s (snd (fst (on_master o t loc s))).
Proof.
  intros HP Hread. unfold on_master. rewrite Hread. simpl.
  destruct (feed _ _ _ _) as [events d] eqn:Hf. simpl. split; [done|].
  eapply grows_trans; [|apply grows_notify_all].
  eapply grows_trans; [|by apply grows_same].
  eapply grows_trans; [|apply grows_send_to_client; intros; apply HP].
  by apply grows_same.
Qed.

Lemma grows_handle_exit o status s :
  (forall body ok, P (SendAll (lit "exit") body ok)) ->
  P CloseMaster -> P CloseClient ->
  grows P s (handle_exit o status s).
Proof.
  intros HP HM HC.
  destruct (handle_exit_log o status s) as (mid & ok & Hlog & Hmid).
  eexists. split; [exact Hlog|].
  apply Forall_app. split.
  - destruct Hmid as [[_ ->]|[_ (stamp & posted & res & ->)]]; by repeat constructor.
  - by repeat constructor.
Qed.
End Growth.

Section GrowthPty.
Variable P : effect -> Prop.
Hypothesis P_write : forall b ok, P (Write b ok).
Hypothesis P_ioctl : forall rows cols ok, P (Ioctl rows cols ok).

Lemma grows_resize ok rows cols s : grows P s (snd (resize ok rows cols s)).
Proof.
  unfold resize. destruct (master_fd s =? 0)%Z; [apply grows_refl|].
  destruct (pack_H rows), (pack_H cols); simpl;
    try apply grows_refl. by apply grows_emit.
Qed.

Lemma grows_control_frame t chunk msg s : grows P s (snd (control_frame t chunk msg s)).
Proof.
  unfold control_frame, write_master. destruct msg; try apply grows_refl.
  destruct (is_str _ (lit "resize")).
  - pose proof (grows_resize (ioctl_ok t)
                  (default (JInt 24) (dict_get (lit "rows") items))
                  (default (JInt 80) (dict_get (lit "cols") items)) s) as H.
    by destruct (resize _ _ _ _) as [[e|] s'].
  - destruct (is_str _ (lit "input")); [|by apply grows_emit].
    destruct (dict_get (lit "data") items) as [[| | | |x| |]|];
      try apply grows_refl; [|by apply grows_emit].
    destruct (utf8_encode x); [by apply grows_emit|apply grows_refl].
Qed.

(** The client branch writes to the PTY only, and never returns. *)
Lemma grows_on_client t s :
  grows P s (snd (on_client t s)) /\ fst (on_client t s) <> Return.
Proof.
  unfold on_client, write_master.
  destruct (recv t) as [|[|b chunk] parsed]; simpl;
    [split; [apply grows_refl|done]|split; [by apply grows_same|done]|].
  destruct parsed; simpl;
    [split; [apply grows_refl|done]|split; [by apply grows_emit|done]
    |split; [apply grows_refl|done]|].
  split; [apply grows_control_frame|].
  unfold control_frame.
  destruct msg; try done.
  destruct (is_str _ (lit "resize")).
  - by destruct (resize _ _ _ _) as [[e|] s'].
  - destruct (is_str _ (lit "input")); [|done].
    destruct (dict_get (lit "data") items) as [[| | | |x| |]|]; try done.
    by destruct (utf8_encode x).
Qed.
End GrowthPty.

Lemma grows_filter f s s' :
  grows (fun e => f e = false) s s' ->
  List.filter f (log s') = List.filter f (log s).
Proof.
  intros (mid & -> & Hmid). rewrite List.filter_app.
  assert (Hnil : List.filter f mid = []).
  { induction Hmid as [|e mid He _ IH]; simpl; [done|]. by rewrite He. }
  by rewrite Hnil, app_nil_r.
Qed.

(** ** Teardown *)

Lemma torn_down_finish s : torn_down s (finish s).
Proof.
  split; [done|]. exists []. split; [apply finish_log|constructor].
Qed.

Lemma grows_torn_down s1 s2 s3 :
  grows (fun e => is_close e = false) s1 s2 -> torn_down s2 s3 -> torn_down s1 s3.
Proof.
  intros (m1 & H1 & F1) (Hrun & m2 & H2 & F2). split; [done|].
  exists (m1 ++ m2). rewrite H2, H1, <- !app_assoc. split; [done|]. by apply Forall_app.
Qed.

Lemma torn_down_handle_exit o status s : torn_down s (handle_exit o status s).
Proof.
  split; [done|].
  destruct (handle_exit_log o status s) as (mid & ok & Hlog & Hmid).
  exists (mid ++ [SendAll (lit "exit") (Text (str_of_Z (exit_code status))) ok]).
  rewrite Hlog, <- !app_assoc. split; [done|].
  apply Forall_app. split; [|by repeat constructor].
  destruct Hmid as [[_ ->]|[_ (stamp & posted & res & ->)]]; by repeat constructor.
Qed.

Lemma on_master_shape o t loc s :
  (fst (fst (on_master o t loc s)) = Return /\ torn_down s (snd (fst (on_master o t loc s))))
  \/ (fst (fst (on_master o t loc s)) = Next /\
      grows (fun e => is_close e = false) s (snd (fst (on_master o t loc s)))).
Proof.
  destruct (os_read t) as [|[|b data] text] eqn:Hread.
  - left. rewrite on_master_eof by (by left). split; [done|apply torn_down_finish].
  - left. rewrite on_master_eof by (right; by exists text).
    split; [done|apply torn_down_finish].
  - right. by apply (grows_on_master_data _ (fun _ _ _ => eq_refl) o t loc s b data text).
Qed.

Lemma for_readable_shape o t readable loc s :
  (fst (fst (for_readable o t readable loc s)) = Return /\
   torn_down s (snd (fst (for_readable o t readable loc s))))
  \/ (fst (fst (for_readable o t readable loc s)) <> Return /\
      grows (fun e => is_close e = false) s (snd (fst (for_readable o t readable loc s)))).
Proof.
  revert loc s. induction readable as [|[|] rest IH]; intros loc s; simpl.
  - right. split; [done|apply grows_refl].
  - pose proof (on_master_shape o t loc s) as H.
    destruct (on_master o t loc s) as [[[| |e] s'] loc']; simpl in *.
    + destruct H as [[[=] _]|[_ H]].
      destruct (IH loc' s') as [[Hr Ht]|[Hr Hg]].
      * left. split; [done|]. by eapply grows_torn_down.
      * right. split; [done|]. by eapply grows_trans.
    + destruct H as [[_ H]|[[=] _]]. by left.
    + by destruct H as [[[=] _]|[[=] _]].
  - destruct (grows_on_client (fun e => is_close e = false)
                (fun _ _ => eq_refl) (fun _ _ _ => eq_refl) t s) as [Hg Hn].
    destruct (on_client t s) as [[| |e] s']; simpl in *; [|done|by right].
    destruct (IH loc s') as [[Hr Ht]|[Hr Hg']].
    + left. split; [done|]. by eapply grows_torn_down.
    + right. split; [done|]. by eapply grows_trans.
Qed.

Lemma check_child_shape o t s :
  (fst (check_child o t s) = Return /\ torn_down s (snd (check_child o t s)))
  \/ (fst (check_child o t s) <> Return /\
      grows (fun e => is_close e = false) s (snd (check_child o t s))).
Proof.
  unfold check_child. destruct (waitpid t); simpl.
  - right. split; [done|apply grows_refl].
  - left. split; [done|apply torn_down_handle_exit].
  - left. split; [done|apply torn_down_finish].
Qed.

Lemma pass_body_shape o t readable loc s :
  (fst (fst (pass_body o t readable loc s)) = Return /\
   torn_down s (snd (fst (pass_body o t readable loc s))))
  \/ (fst (fst (pass_body o t readable loc s)) <> Return /\
      grows (fun e => is_close e = false) s (snd (fst (pass_body o t readable loc s)))).
Proof.
  unfold pass_body.
  pose proof (grows_check_inactivity (fun e => is_close e = false)
                (fun _ _ _ => eq_refl) o loc s (fun _ _ => eq_refl)) as H1.
  destruct (check_inactivity o loc s) as [s1 loc1]. simpl in H1.
  pose proof (for_readable_shape o t readable loc1 s1) as H2.
  destruct (for_readable o t readable loc1 s1) as [[[| |e] s2] loc2]; simpl in *.
  - destruct H2 as [[[=] _]|[_ H2]].
    pose proof (check_child_shape o t s2) as H3.
    destruct (check_child o t s2) as [sig s3]. simpl in *.
    destruct H3 as [[-> H3]|[Hn H3]].
    + left. split; [done|]. eapply grows_torn_down; [|exact H3]. by eapply grows_trans.
    + right. split; [done|]. eapply grows_trans; [|exact H3]. by eapply grows_trans.
  - destruct H2 as [[_ H2]|[Hn _]]; [|done]. left. split; [done|].
    by eapply grows_torn_down.
  - destruct H2 as [[[=] _]|[_ H2]]. right. split; [done|]. by eapply grows_trans.
Qed.

Lemma while_running_shape o turns loc s :
  (fst (while_running o turns loc s) = Returned /\
   torn_down s (snd (while_running o turns loc s)))
  \/ (fst (while_running o turns loc s) <> Returned /\
      grows (fun e => is_close e = false) s (snd (while_running o turns loc s))).
Proof.
  revert loc s. induction turns as [|t turns IH]; intros loc s; simpl.
  - right. destruct (running s); (split; [done|apply grows_refl]).
  - destruct (running s); [|right; split; [done|apply grows_refl]].
    pose proof (select_timeout_log o loc s) as H0.
    destruct (select_timeout o loc s) as [timeout s0]. simpl in H0.
    assert (Hsel : grows (fun e => is_close e = false) s (emit (Select timeout) s0)).
    { eapply grows_trans; [by apply grows_same|by apply grows_emit]. }
    destruct (select_ t) as [|m c]; [right; by split|].
    match goal with |- context [pass_body o t ?r loc ?x] =>
      pose proof (pass_body_shape o t r loc x) as Hp;
      destruct (pass_body o t r loc x) as [[[| |e] s'] loc'] end; simpl in *.
    + destruct Hp as [[[=] _]|[_ Hp]].
      destruct (IH loc' s') as [[Hr Ht]|[Hr Hg]].
      * left. split; [done|]. eapply grows_torn_down; [|exact Ht]. by eapply grows_trans.
      * right. split; [done|]. eapply grows_trans; [|exact Hg]. by eapply grows_trans.
    + destruct Hp as [[_ Hp]|[Hn _]]; [|done]. left. split; [done|].
      by eapply grows_torn_down.
    + destruct Hp as [[[=] _]|[_ Hp]]. right. split; [done|]. by eapply grows_trans.
Qed.

(** X12. The session is torn down exactly when [_loop] leaves by a
    [return]: then [running] is false and the PTY master and the client
    socket have been closed once each, in this order, as the last things
    done; when the loop ends in any other way (its test, the [break], an
    exception) nothing has been closed. *)
Theorem teardown_exactly_when_returned o turns s :
  exists added,
    log (snd (_loop o turns s)) = log s ++ added /\
    match fst (_loop o turns s) with
    | Returned =>
        running (snd (_loop o turns s)) = false /\
        exists before,
          added = before ++ [CloseMaster; CloseClient] /\
          Forall (fun e => is_close e = false) before
    | _ => Forall (fun e => is_close e = false) added
    end.
Proof.
  unfold _loop. simpl.
  match goal with |- context [while_running o turns ?l ?x] =>
    destruct (while_running_shape o turns l x)
      as [[Hr (Hrun & mid & Hm & Hq)]|[Hr (mid & Hm & Hq)]] end; simpl in Hm.
  - eexists. split; [exact Hm|]. rewrite Hr. split; [done|]. by exists mid.
  - exists mid. split; [done|].
    by destruct (fst (while_running _ _ _ _)).
Qed.

(** ** The flag [running] and the sweep of the daemon *)

Lemma while_running_flag o turns loc s :
  match fst (while_running o turns loc s) with
  | Stopped => running (snd (while_running o turns loc s)) = false
  | Broke | Pending => running (snd (while_running o turns loc s)) = true
  | _ => True
  end.
Proof.
  revert loc s. induction turns as [|t turns IH]; intros loc s; simpl.
  - by destruct (running s) eqn:Hr.
  - destruct (running s) eqn:Hr; [|done].
    pose proof (select_timeout_running o loc s) as H0.
    destruct (select_timeout o loc s) as [timeout s0]. simpl in H0.
    destruct (select_ t) as [|m c]; simpl; [by rewrite H0|].
    destruct (pass_body _ _ _ _ _) as [[[| |e] s'] loc']; simpl; [apply IH|done|done].
Qed.

(** X13. After [_loop] the daemon's sweep drops the session when the loop
    ended by a [return] or at its test, and keeps it for ever when the
    loop ended by the [break] that follows a failed [select]: [running] is
    then still true. *)
Theorem sweep_after_loop o turns s registry :
  match fst (_loop o turns s) with
  | Returned | Stopped =>
      sweep (registry ++ [snd (_loop o turns s)]) = sweep registry
  | Broke | Pending =>
      sweep (registry ++ [snd (_loop o turns s)]) =
        sweep registry ++ [snd (_loop o turns s)]
  | Uncaught _ =>
      sweep (registry ++ [snd (_loop o turns s)]) =
        sweep registry ++ sweep [snd (_loop o turns s)]
  end.
Proof.
  unfold sweep. rewrite List.filter_app. simpl.
  unfold _loop. simpl.
  match goal with |- context [while_running o turns ?l ?x] =>
    pose proof (while_running_flag o turns l x) as Hf;
    pose proof (while_running_shape o turns l x) as Hs end.
  destruct (fst (while_running _ _ _ _)) eqn:Hout.
  - destruct Hs as [[_ [Hrun _]]|[Hn _]]; [|done]. by rewrite Hrun, app_nil_r.
  - by rewrite Hf, app_nil_r.
  - by rewrite Hf.
  - done.
  - by rewrite Hf.
Qed.

(** ** The inactivity watchdog *)

Lemma event_frames_grows s s' :
  grows (fun e => is_event_frame e = false) s s' -> event_frames s' = event_frames s.
Proof. intros H. unfold event_frames. by rewrite (grows_filter _ _ _ H). Qed.

Lemma event_frames_same s s' : log s' = log s -> event_frames s' = event_frames s.
Proof. intros H. unfold event_frames. by rewrite H. Qed.

Lemma check_inactivity_owed o loc s :
  event_frames (fst (check_inactivity o loc s)) + owed (snd (check_inactivity o loc s))
  <= event_frames s + owed loc.
Proof.
  unfold check_inactivity, owed. destruct (armed s) as [t|]; simpl; [|lia].
  destruct (inactivity_notified loc) eqn:Hn; simpl; [by rewrite Hn|].
  destruct (Qlt_le_dec _ _); simpl.
  - unfold send_to_client, notify, event_frames.
    destruct (send _ _ _ _) as [[r n'] req]. simpl.
    match goal with |- context [if ?b then _ else _] => destruct b end; simpl;
      rewrite !List.filter_app, !length_app; simpl; lia.
  - rewrite Hn. unfold event_frames. simpl. lia.
Qed.

Lemma output_is_no_event_frame body ok :
  is_event_frame (SendAll (lit "output") body ok) = false.
Proof. reflexivity. Qed.

Lemma exit_is_no_event_frame body ok :
  is_event_frame (SendAll (lit "exit") body ok) = false.
Proof. reflexivity. Qed.

Lemma on_master_event_frames o t loc s :
  event_frames (snd (fst (on_master o t loc s))) = event_frames s.
Proof.
  destruct (os_read t) as [|[|b data] text] eqn:Hread.
  - rewrite on_master_eof by (by left). unfold event_frames. cbn [fst snd].
    rewrite finish_log, List.filter_app, length_app. simpl. lia.
  - rewrite on_master_eof by (right; by exists text). unfold event_frames. cbn [fst snd].
    rewrite finish_log, List.filter_app, length_app. simpl. lia.
  - apply event_frames_grows.
    by apply (grows_on_master_data _ (fun _ _ _ => eq_refl) o t loc s b data text
                output_is_no_event_frame).
Qed.

Lemma on_master_owed o t loc s : owed (snd (on_master o t loc s)) <= owed loc + 1.
Proof.
  unfold on_master, owed.
  destruct (os_read t) as [|[|b data] text]; simpl; try lia.
  destruct (feed _ _ _ _) as [events d]. simpl. destruct (inactivity_notified loc); lia.
Qed.

Lemma on_client_event_frames t s : event_frames (snd (on_client t s)) = event_frames s.
Proof.
  apply event_frames_grows.
  apply (grows_on_client _ (fun _ _ => eq_refl) (fun _ _ _ => eq_refl)).
Qed.

Lemma check_child_event_frames o t s :
  event_frames (snd (check_child o t s)) = event_frames s.
Proof.
  unfold check_child. destruct (waitpid t); simpl; [done| |].
  - apply event_frames_grows.
    by apply (grows_handle_exit _ (fun _ _ _ => eq_refl) o status s exit_is_no_event_frame).
  - unfold event_frames. rewrite finish_log, List.filter_app, length_app. simpl. lia.
Qed.

Lemma for_readable_owed o t readable loc s :
  event_frames (snd (fst (for_readable o t readable loc s)))
  + owed (snd (for_readable o t readable loc s))
  <= event_frames s + owed loc
     + length (List.filter (fun f => match f with Master => true | Client => false end)
                 readable).
Proof.
  revert loc s. induction readable as [|[|] rest IH]; intros loc s; simpl; [lia| |].
  - pose proof (on_master_event_frames o t loc s) as He.
    pose proof (on_master_owed o t loc s) as Ho.
    destruct (on_master o t loc s) as [[[| |e] s'] loc']; simpl in *; try lia.
    specialize (IH loc' s'). lia.
  - pose proof (on_client_event_frames t s) as He.
    destruct (on_client t s) as [[| |e] s']; simpl in *; try lia.
    specialize (IH loc s'). lia.
Qed.

(** X14. The session sends at most one inactivity event per idle window.
    From any state of the loop, the [event] frames sent to the client in
    the passes that follow are at most as many as the passes among them in
    which the PTY master was readable, plus one when no inactivity event
    has been sent yet in the idle window the loop is in, and plus none
    when one has: as long as the PTY master stays silent, a window that
    has had its event gets no other, and a window that has not gets at
    most one. *)
Theorem inactivity_once_per_idle_window o turns loc s :
  event_frames (snd (while_running o turns loc s))
  <= event_frames s + owed loc + length (List.filter master_ready turns).
Proof.
  revert loc s. induction turns as [|t turns IH]; intros loc s; simpl.
  - destruct (running s); simpl; lia.
  - destruct (running s); [|simpl; lia].
    pose proof (select_timeout_log o loc s) as H0.
    destruct (select_timeout o loc s) as [timeout s0]. simpl in H0.
    assert (Hsel : event_frames (emit (Select timeout) s0) = event_frames s).
    { unfold event_frames. simpl. rewrite H0, List.filter_app, length_app. simpl. lia. }
    unfold master_ready at 1.
    destruct (select_ t) as [|m c]; simpl; [lia|].
    unfold pass_body.
    pose proof (check_inactivity_owed o loc (emit (Select timeout) s0)) as H1.
    destruct (check_inactivity o loc (emit (Select timeout) s0)) as [s1 loc1].
    simpl in H1.
    match goal with |- context [for_readable o t ?r loc1 s1] =>
      pose proof (for_readable_owed o t r loc1 s1) as H2;
      assert (Hr : length (List.filter
                (fun f => match f with Master => true | Client => false end) r)
              = if m then 1 else 0) by (by destruct m, c);
      destruct (for_readable o t r loc1 s1) as [[[| |e] s2] loc2] end;
      rewrite Hr in H2; simpl in H2.
    + pose proof (check_child_event_frames o t s2) as H3.
      destruct (check_child o t s2) as [[| |e] s3]; simpl in *.
      * specialize (IH loc2 s3). destruct m; simpl; lia.
      * destruct m; simpl; lia.
      * destruct m; simpl; lia.
    + destruct m; simpl; lia.
    + destruct m; simpl; lia.
Qed.

(** ** Output of the child *)

Lemma feed_clock_irrelevant clock clock' data cmd d :
  snd (feed clock data cmd d) = snd (feed clock' data cmd d) /\
  List.map event_view (fst (feed clock data cmd d)) =
    List.map event_view (fst (feed clock' data cmd d)).
Proof.
  rewrite !feed_eq. simpl.
  destruct (feed_loop_view (length (partial d ++ data)) clock clock' cmd
              (with_partial (partial d ++ data) d) []) as [H1 H2].
  by split.
Qed.

Lemma notify_all_log o events s :
  exists notes,
    log (fold_left (fun s' event => notify o event s') events s) = log s ++ notes /\
    notified notes = events /\
    length notes = length events /\
    detector (fold_left (fun s' event => notify o event s') events s) = detector s /\
    running (fold_left (fun s' event => notify o event s') events s) = running s.
Proof.
  revert s. induction events as [|e events IH]; intros s; simpl.
  - exists []. by rewrite app_nil_r.
  - destruct (IH (notify o e s)) as (notes & Hl & Hn & Hlen & Hd & Hr).
    unfold notify in *. destruct (send _ _ _ _) as [[r n'] req]. simpl in *.
    exists (NotifierSend e req r :: notes). rewrite Hl, <- app_assoc. simpl.
    by rewrite Hn, Hlen, Hd, Hr.
Qed.

(** X15. A read of the PTY master that gives bytes is relayed at once: the
    branch sends the decoded text to the client in one [output] frame,
    then passes the events of the detector for this text to the notifier,
    all of them and in order; it restarts the idle window and goes on with
    the loop. *)
Theorem master_output_relayed o t loc s b data text clock :
  os_read t = ReadData (b :: data) text ->
  fst (fst (on_master o t loc s)) = Next /\
  snd (on_master o t loc s) =
    {| last_activity := time_time o (calls s); inactivity_notified := false |} /\
  detector (snd (fst (on_master o t loc s))) =
    snd (feed clock text (command_str s) (detector s)) /\
  exists ok notes,
    log (snd (fst (on_master o t loc s))) =
      log s ++ SendAll (lit "output") (Text text) ok :: notes /\
    length (notified notes) = length notes /\
    List.map event_view (notified notes) =
      List.map event_view (fst (feed clock text (command_str s) (detector s))).
Proof.
  intros Hread. unfold on_master. rewrite Hread. simpl.
  match goal with |- context [feed ?c text ?cmd ?d] =>
    destruct (feed_clock_irrelevant c clock text cmd d) as [Hs Hv];
    destruct (feed c text cmd d) as [events d'] eqn:Hf end.
  simpl in *.
  match goal with |- context [fold_left _ events ?x] =>
    destruct (notify_all_log o events x) as (notes & Hl & Hn & Hlen & Hd & Hr) end.
  repeat split; try done.
  - rewrite Hd. simpl. rewrite Hs.
    unfold send_to_client. by destruct (sendall o _).
  - exists (sendall o (calls s + 1)), notes. rewrite Hl, Hn, Hlen. repeat split.
    + unfold send_to_client. destruct (sendall o _); simpl; by rewrite <- app_assoc.
    + rewrite Hv. unfold send_to_client.
      by destruct (sendall o _).
Qed.

Lemma master_output_relayed_witness :
  fst (fst (on_master fair (output_turn [x65; x0a] (lit "e" ++ [NL])) fresh_locals sh_session))
    = Next /\
  exists ok notes,
    log (snd (fst (on_master fair (output_turn [x65; x0a] (lit "e" ++ [NL])) fresh_locals
                     sh_session))) =
      log sh_session ++ SendAll (lit "output") (Text (lit "e" ++ [NL])) ok :: notes.
Proof.
  destruct (master_output_relayed fair (output_turn [x65; x0a] (lit "e" ++ [NL]))
              fresh_locals sh_session x65 [x0a] (lit "e" ++ [NL]) (fun _ => 0%Q) eq_refl)
    as (H1 & _ & _ & ok & notes & H2 & _).
  split; [exact H1|]. by exists ok, notes.
Defined.

(** ** Chunks the client branch does not survive *)

(** X16. A chunk from the client that is not UTF-8, or that is JSON but
    not an object (a number, a string, a list, [true], [null]), is not
    forwarded to the PTY: its exception ([UnicodeDecodeError], or
    [AttributeError]) leaves [_loop], and nothing is closed. *)
Theorem unparsable_chunk_leaves_loop o t rest loc s b chunk parsed :
  running s = true ->
  select_ t = Readable false true ->
  recv t = RecvData (b :: chunk) parsed ->
  not_an_object parsed = true ->
  fst (while_running o (t :: rest) loc s) = Uncaught (chunk_error parsed) /\
  List.filter is_write (log (snd (while_running o (t :: rest) loc s)))
    = List.filter is_write (log s) /\
  List.filter is_close (log (snd (while_running o (t :: rest) loc s)))
    = List.filter is_close (log s).
Proof.
  intros Hrun Hsel Hrecv Hbad. simpl. rewrite Hrun, Hsel.
  pose proof (select_timeout_log o loc s) as H0.
  destruct (select_timeout o loc s) as [timeout s0]. simpl in H0.
  unfold pass_body. simpl.
  pose proof (grows_check_inactivity (fun e => is_write e = false)
                (fun _ _ _ => eq_refl) o loc (emit (Select timeout) s0)
                (fun _ _ => eq_refl)) as Hw.
  pose proof (grows_check_inactivity (fun e => is_close e = false)
                (fun _ _ _ => eq_refl) o loc (emit (Select timeout) s0)
                (fun _ _ => eq_refl)) as Hc.
  destruct (check_inactivity o loc (emit (Select timeout) s0)) as [s1 loc1].
  simpl in Hw, Hc.
  apply grows_filter in Hw, Hc. simpl in Hw, Hc.
  rewrite H0, List.filter_app in Hw, Hc. simpl in Hw, Hc. rewrite app_nil_r in Hw, Hc.
  unfold on_client. rewrite Hrecv.
  destruct parsed as [| | |msg]; [|done|done|]; simpl; [by repeat split|].
  destruct msg; try done; by repeat split.
Qed.

Lemma unparsable_chunk_leaves_loop_witness :
  fst (while_running fair [client_turn [x35] (Loaded (JInt 5))] fresh_locals sh_session)
    = Uncaught AttributeError /\
  List.filter is_write
    (log (snd (while_running fair [client_turn [x35] (Loaded (JInt 5))] fresh_locals
                 sh_session))) = List.filter is_write (log sh_session) /\
  List.filter is_close
    (log (snd (while_running fair [client_turn [x35] (Loaded (JInt 5))] fresh_locals
                 sh_session))) = List.filter is_close (log sh_session).
Proof.
  apply (unparsable_chunk_leaves_loop fair (client_turn [x35] (Loaded (JInt 5))) []
           fresh_locals sh_session x35 [] (Loaded (JInt 5))); reflexivity.
Defined.

(** ** Resizing *)

(** X17. A [resize] frame whose [rows] and [cols] are integers from 0 to
    65535 sets the window size with one ioctl and writes nothing to the
    PTY; a missing [rows] counts as 24 and a missing [cols] as 80; a
    failing ioctl is ignored. *)
Theorem resize_frame_sets_window t s b chunk items r c :
  recv t = RecvData (b :: chunk) (Loaded (JDict items)) ->
  is_str (dict_get (lit "type") items) (lit "resize") = true ->
  master_fd s <> 0%Z ->
  pack_H (default (JInt 24) (dict_get (lit "rows") items)) = Some r ->
  pack_H (default (JInt 80) (dict_get (lit "cols") items)) = Some c ->
  on_client t s = (Next, emit (Ioctl r c (ioctl_ok t)) s) /\
  (0 <= r <= 65535)%Z /\ (0 <= c <= 65535)%Z /\
  (dict_get (lit "rows") items = None -> r = 24%Z) /\
  (dict_get (lit "cols") items = None -> c = 80%Z).
Proof.
  intros Hrecv Htype Hfd Hr Hc.
  assert (Hrange : forall v z, pack_H v = Some z -> (0 <= z <= 65535)%Z).
  { intros v z. destruct v; simpl; try done.
    - destruct b0; intros [= <-]; lia.
    - destruct ((0 <=? z0) && (z0 <=? 65535))%Z eqn:Hz; [|done].
      intros [= <-]. apply andb_true_iff in Hz as [H1 H2].
      apply Z.leb_le in H1, H2. lia. }
  split; [|split; [by eapply Hrange|split; [by eapply Hrange|split]]].
  - unfold on_client. rewrite Hrecv. simpl. rewrite Htype.
    unfold resize. destruct (master_fd s =? 0)%Z eqn:H0; [by apply Z.eqb_eq in H0|].
    by rewrite Hr, Hc.
  - intros Hnone. rewrite Hnone in Hr. simpl in Hr. by injection Hr as <-.
  - intros Hnone. rewrite Hnone in Hc. simpl in Hc. by injection Hc as <-.
Qed.

Lemma resize_frame_sets_window_witness :
  on_client (client_turn resize_bare (Loaded (JDict resize_bare_items))) sh_session =
    (Next, emit (Ioctl 24 80 true) sh_session).
Proof.
  assert (Hfd : master_fd sh_session <> 0%Z) by discriminate.
  exact (proj1 (resize_frame_sets_window
                  (client_turn resize_bare (Loaded (JDict resize_bare_items))) sh_session
                  "{"%byte (tl resize_bare) resize_bare_items 24%Z 80%Z
                  eq_refl eq_refl Hfd eq_refl eq_refl)).
Defined.

(** ** A client that cannot be written to *)

Lemma while_running_stopped o turns loc s :
  running s = false -> while_running o turns loc s = (Stopped, s).
Proof. intros H. destruct turns; simpl; by rewrite H. Qed.

(** X18. When the [output] frame cannot be sent to the client (the
    [sendall] raises [OSError]) while the child is still running, the
    session clears [running] and the loop stops at its next test: no
    [exit] frame is sent and nothing is closed. *)
Theorem failed_send_stops_without_teardown o t rest loc s b data text :
  running s = true ->
  armed s = None ->
  select_ t = Readable true false ->
  os_read t = ReadData (b :: data) text ->
  sendall o (calls s + 1) = false ->
  waitpid t = WaitRunning ->
  fst (while_running o (t :: rest) loc s) = Stopped /\
  running (snd (while_running o (t :: rest) loc s)) = false /\
  List.filter is_exit_frame (log (snd (while_running o (t :: rest) loc s)))
    = List.filter is_exit_frame (log s) /\
  List.filter is_close (log (snd (while_running o (t :: rest) loc s)))
    = List.filter is_close (log s).
Proof.
  intros Hrun Harmed Hsel Hread Hsend Hwait.
  assert (Hout : fst (while_running o (t :: rest) loc s) = Stopped /\
                 running (snd (while_running o (t :: rest) loc s)) = false).
  { simpl. rewrite Hrun, Hsel. unfold select_timeout. rewrite Harmed.
    unfold pass_body, check_inactivity.
    assert (Ha : armed (emit (Select 1%Q) s) = None) by exact Harmed.
    rewrite Ha. simpl. unfold on_master. rewrite Hread. simpl.
    destruct (feed _ _ _ _) as [events d]. simpl.
    unfold check_child. rewrite Hwait.
    match goal with |- context [fold_left _ events ?x] =>
      destruct (notify_all_log o events x) as (notes & _ & _ & _ & _ & Hr) end.
    unfold send_to_client in *. simpl in *. rewrite Hsend in *. simpl in *.
    rewrite while_running_stopped by done. by split. }
  destruct Hout as [Hs Hr]. repeat split; try done.
  - destruct (while_running_log o (t :: rest) loc s) as [Hq|[Hret _]].
    + by apply grows_filter.
    + rewrite Hs in Hret. discriminate Hret.
  - destruct (while_running_shape o (t :: rest) loc s) as [[Hret _]|[_ Hg]].
    + rewrite Hs in Hret. discriminate Hret.
    + by apply grows_filter.
Qed.

Lemma failed_send_stops_without_teardown_witness :
  fst (while_running deaf [output_turn [x65] (lit "e")] fresh_locals sh_session) = Stopped /\
  running (snd (while_running deaf [output_turn [x65] (lit "e")] fresh_locals sh_session))
    = false /\
  List.filter is_exit_frame
    (log (snd (while_running deaf [output_turn [x65] (lit "e")] fresh_locals sh_session)))
    = List.filter is_exit_frame (log sh_session) /\
  List.filter is_close
    (log (snd (while_running deaf [output_turn [x65] (lit "e")] fresh_locals sh_session)))
    = List.filter is_close (log sh_session).
Proof.
  apply (failed_send_stops_without_teardown deaf (output_turn [x65] (lit "e")) []
           fresh_locals sh_session x65 [] (lit "e")); reflexivity.
Defined.

(** * The text that goes through *)


















(** ** The detector keeps the text *)

Lemma split_nl_join p line rest :
  split_nl p = Some (line, rest) -> p = line ++ NL :: rest.
Proof.
  revert line rest. induction p as [|c p IH]; intros line rest; simpl; [done|].
  destruct (N.eqb c NL) eqn:Hc.
  - intros [= <- <-]. apply N.eqb_eq in Hc. by subst c.
  - destruct (split_nl p) as [[l r]|]; [|done].
    intros [= <- <-]. simpl. f_equal. by apply IH.
Qed.

Lemma feed_loop_lossless f clock cmd d events :
  length (partial d) <= f ->
  length (lines d) + length (split_lines f (partial d)) <= 500 ->
  lines (fst (feed_loop f clock cmd d events)) = lines d ++ split_lines f (partial d) /\
  unlines (split_lines f (partial d)) ++ partial (fst (feed_loop f clock cmd d events))
    = partial d.
Proof.
  revert d events. induction f as [|f IH]; intros d events Hf Hlen; simpl.
  - by rewrite app_nil_r.
  - simpl in Hlen.
    destruct (split_nl (partial d)) as [[line rest]|] eqn:Hs; simpl in *;
      [|by rewrite app_nil_r].
    pose proof (split_nl_length _ _ _ Hs) as Hl.
    rewrite feed_line_eq.
    assert (Ht : truncate (lines d ++ [line]) = lines d ++ [line]).
    { unfold truncate. rewrite length_app. simpl.
      destruct (500 <? length (lines d) + 1) eqn:Hc; [|done].
      apply Nat.ltb_lt in Hc. lia. }
    rewrite Ht.
    match goal with |- context [feed_loop f clock cmd ?d' ?e'] =>
      destruct (IH d' e') as [H1 H2] end; simpl.
    + lia.
    + rewrite length_app. simpl. lia.
    + simpl in H1, H2. rewrite H1, <- app_assoc. split; [done|].
      unfold unlines in *. simpl. rewrite <- !app_assoc, H2. simpl.
      symmetry. by apply split_nl_join.
Qed.

(** X20. Until 500 lines have been completed, a new detector keeps the
    text it was fed, however it was cut into chunks: its lines are the
    lines completed so far, its partial line is what follows the last
    newline, and together they are the text. *)
Theorem fresh_detector_keeps_text ps clocks chunks cmd :
  length (completed_lines (concat chunks)) <= 500 ->
  lines (snd (feed_each clocks chunks cmd (PatternDetector_init ps)))
    = completed_lines (concat chunks) /\
  unlines (lines (snd (feed_each clocks chunks cmd (PatternDetector_init ps))))
  ++ partial (snd (feed_each clocks chunks cmd (PatternDetector_init ps)))
    = concat chunks /\
  split_nl (partial (snd (feed_each clocks chunks cmd (PatternDetector_init ps)))) = None.
Proof.
  intros Hlen.
  destruct (feed_each_concat clocks (fun _ => 0%Q) chunks cmd (PatternDetector_init ps))
    as [Hs _]; [done|].
  rewrite Hs. rewrite feed_eq. simpl.
  destruct (feed_loop_lossless (length (concat chunks)) (fun _ => 0%Q) cmd
              (with_partial (concat chunks) (PatternDetector_init ps)) [])
    as [H1 H2]; simpl; [lia|exact Hlen|].
  simpl in H1, H2. rewrite H1. split; [done|]. split; [exact H2|].
  apply feed_loop_partial. simpl. lia.
Qed.

Lemma fresh_detector_keeps_text_witness :
  lines (snd (feed_each (fun _ _ => 0%Q) [lit "ab" ++ [NL] ++ lit "c"; lit "d" ++ [NL] ++ lit "e"]
                (lit "make") (PatternDetector_init DEFAULT_PATTERNS)))
    = completed_lines (concat [lit "ab" ++ [NL] ++ lit "c"; lit "d" ++ [NL] ++ lit "e"]).
Proof.
  apply (fresh_detector_keeps_text DEFAULT_PATTERNS (fun _ _ => 0%Q)
           [lit "ab" ++ [NL] ++ lit "c"; lit "d" ++ [NL] ++ lit "e"] (lit "make")).
  vm_compute. lia.
Defined.
